(** * detect_image.py: label loading, interpreter construction and the
      per-image detection loop, as a shallow embedding.

    Python text is modelled as [string]; every [ascii] stands for the code
    point of the same number (0..255), so the statements about text speak of
    files, paths and labels within that range.  Python [int] is [Z], a [dict]
    is a [gmap], a [list] is a [list].  Exceptions are an explicit result type
    and console output and library calls are recorded in a trace of events.

    Every call that leaves the script for the file system, the TFLite runtime,
    the [detect] helper or PIL either returns or raises, as the world decides.
    Standard output is taken to accept every line: [print] is recorded and
    returns. *)

From Stdlib Require Import ZArith NArith QArith Ascii String Decimal DecimalString DecimalN.
From stdpp Require Import gmap strings list fin_maps.

Local Open Scope string_scope.
Local Open Scope list_scope.
Local Open Scope Z_scope.

#[local] Arguments append !s1 s2.

(** ** Exceptions and results *)

Inductive exn : Type :=
| FileNotFoundError
| IsADirectoryError
| PermissionError
| ValueError
| IndexError
| AttributeError
| UnboundLocalError
| RuntimeFailure.      (* whatever an external library raises *)

Inductive result (A : Type) : Type :=
| Ok (a : A)
| Raise (e : exn).
Arguments Ok {A} a.
Arguments Raise {A} e.

(** ** Python [str] primitives used by the script *)

Module Str.

Definition code (c : ascii) : N := N_of_ascii c.

Definition in_range (lo hi : N) (c : ascii) : bool :=
  ((lo <=? code c) && (code c <=? hi))%N.

(** [ch.isspace()] on code points below 256: TAB..CR, FS..US, space,
    NEL (0x85) and NBSP (0xA0). *)
Definition isspace (c : ascii) : bool :=
  in_range 9 13 c || in_range 28 32 c || in_range 133 133 c || in_range 160 160 c.

(** [ch.isdigit()] on code points below 256: the ASCII digits and the
    superscripts two, three (0xB2, 0xB3) and one (0xB9). *)
Definition isdigit_char (c : ascii) : bool :=
  in_range 48 57 c || in_range 178 179 c || in_range 185 185 c.

Fixpoint forallb (p : ascii -> bool) (s : string) : bool :=
  match s with
  | EmptyString => true
  | String c r => p c && forallb p r
  end.

(** [s.isdigit()]: at least one character and all of them digits. *)
Definition isdigit (s : string) : bool :=
  match s with
  | EmptyString => false
  | _ => forallb isdigit_char s
  end.

Fixpoint lstrip_with (p : ascii -> bool) (s : string) : string :=
  match s with
  | EmptyString => EmptyString
  | String c r => if p c then lstrip_with p r else s
  end.

Fixpoint rstrip_with (p : ascii -> bool) (s : string) : string :=
  match s with
  | EmptyString => EmptyString
  | String c r =>
      match rstrip_with p r with
      | EmptyString => if p c then EmptyString else String c EmptyString
      | r' => String c r'
      end
  end.

(** [s.strip()] *)
Definition strip (s : string) : string :=
  rstrip_with isspace (lstrip_with isspace s).

(** [s.split(sep, maxsplit)] for a one-character separator; [None] is
    Python's default [maxsplit=-1].  The result is never empty. *)
Fixpoint split (sep : ascii) (maxsplit : option nat) (s : string) : list string :=
  match s with
  | EmptyString => [EmptyString]
  | String c r =>
      let cut :=
        Ascii.eqb c sep &&
        match maxsplit with Some O => false | _ => true end in
      if cut then
        EmptyString :: split sep (pred <$> maxsplit) r
      else
        match split sep maxsplit r with
        | h :: t => String c h :: t
        | [] => [String c EmptyString]
        end
  end.

Definition digit_val (c : ascii) : option N :=
  if in_range 48 57 c then Some (code c - 48)%N else None.

(** White space that [int()] skips around a literal: the C-locale
    blanks TAB..CR and space, and the non-ASCII blanks, which the
    conversion first turns into spaces.  FS..US are not skipped. *)
Definition int_space (c : ascii) : bool :=
  in_range 9 13 c || in_range 32 32 c || in_range 133 133 c || in_range 160 160 c.

(** The digits of a base-10 literal: a digit, then digits each
    optionally preceded by one underscore, then trailing blanks. *)
Fixpoint int_digits (acc : N) (s : string) : option N :=
  match s with
  | EmptyString => None
  | String c r =>
      match digit_val c with
      | None => None
      | Some d =>
          let acc' := (10 * acc + d)%N in
          if forallb int_space r then Some acc'
          else
            match r with
            | String c' r' =>
                if Ascii.eqb c' "_" then int_digits acc' r' else int_digits acc' r
            | EmptyString => None
            end
      end
  end.

(** [int(s)] for a [str] argument (base 10, Python before the digit-count
    limit of 3.11); [None] stands for [ValueError]. *)
Definition to_int (s : string) : option Z :=
  match lstrip_with int_space s with
  | EmptyString => None
  | String c r as body =>
      if Ascii.eqb c "+" then Z.of_N <$> int_digits 0 r
      else if Ascii.eqb c "-" then (fun n => - Z.of_N n) <$> int_digits 0 r
      else Z.of_N <$> int_digits 0 body
  end.

(** [str(n)] for a non-negative [int]. *)
Definition of_N (n : N) : string := NilEmpty.string_of_uint (N.to_uint n).

End Str.

(** ** Reading a text file *)

Definition LF : ascii := "010"%char.
Definition CR : ascii := "013"%char.

(** Text mode with the default [newline=None]: every [\r\n] and every lone
    [\r] is read as [\n]. *)
Fixpoint universal_newlines (s : string) : string :=
  match s with
  | EmptyString => EmptyString
  | String c r =>
      if Ascii.eqb c CR then
        match r with
        | String c' r' =>
            if Ascii.eqb c' LF then String LF (universal_newlines r')
            else String LF (universal_newlines r)
        | EmptyString => String LF EmptyString
        end
      else String c (universal_newlines r)
  end.

(** Cutting after every [\n], the terminator kept with its line. *)
Fixpoint split_keepends (s : string) : list string :=
  match s with
  | EmptyString => []
  | String c r =>
      if Ascii.eqb c LF then String c EmptyString :: split_keepends r
      else
        match split_keepends r with
        | [] => [String c EmptyString]
        | l :: ls => String c l :: ls
        end
  end.

(** [f.readlines()] on a file opened in text mode with the given content. *)
Definition readlines (content : string) : list string :=
  split_keepends (universal_newlines content).

(** ** load_labels *)

(** [lst[0]] *)
Definition item0 {A} (l : list A) : result A :=
  match l with
  | x :: _ => Ok x
  | [] => Raise IndexError
  end.

(** [{int(index): label.strip() for index, label in pairs}]: the pairs are
    taken in order, a later key overwrites an earlier one, and a line that
    does not unpack into two parts or whose index [int] rejects raises. *)
Fixpoint dict_of_pairs (pairs : list (list string)) (acc : gmap Z string)
  : result (gmap Z string) :=
  match pairs with
  | [] => Ok acc
  | [index; label] :: ps =>
      match Str.to_int index with
      | Some k => dict_of_pairs ps (<[k := Str.strip label]> acc)
      | None => Raise ValueError
      end
  | _ :: _ => Raise ValueError
  end.

(** [{index: line.strip() for index, line in enumerate(lines)}], counting
    from [i]. *)
Fixpoint dict_of_enumerate (i : Z) (lines : list string) (acc : gmap Z string)
  : gmap Z string :=
  match lines with
  | [] => acc
  | line :: ls => dict_of_enumerate (i + 1) ls (<[i := Str.strip line]> acc)
  end.

(** The body of [load_labels] once [lines] has been read. *)
Definition load_labels_lines (lines : list string) : result (gmap Z string) :=
  match lines with
  | [] => Ok ∅
  | line0 :: _ =>
      match item0 (Str.split " " (Some 1%nat) line0) with
      | Raise e => Raise e
      | Ok tok =>
          if Str.isdigit tok then
            dict_of_pairs (map (Str.split " " (Some 1%nat)) lines) ∅
          else
            Ok (dict_of_enumerate 0 lines ∅)
      end
  end.

(** A file system as far as the script reads it: the decoded text of a
    file, or the exception that opening and reading that path raises. *)
Definition FileSystem : Type := string -> result string.

Definition load_labels (fs : FileSystem) (path : string) : result (gmap Z string) :=
  match fs path with
  | Raise e => Raise e
  | Ok content => load_labels_lines (readlines content)
  end.

Definition load_labels_text (content : string) : result (gmap Z string) :=
  load_labels_lines (readlines content).


(** ** make_interpreter *)

(** The handle the runtime returns, as far as the script can tell handles
    apart: the model path it was built from. *)
Record Interpreter : Type := { model_path : string }.

(** [model_file, *device = model_file.split('@')] followed by the call of
    the runtime's constructor [tflite_Interpreter] on [model_file] alone. *)
Definition make_interpreter {I : Type} (tflite_Interpreter : string -> result I)
    (model_file : string) : result I :=
  match Str.split "@" None model_file with
  | model_file' :: device => tflite_Interpreter model_file'
  | [] => Raise ValueError
  end.

(** ** Detections *)

(** Modelled from the spec: the detection record of the external [detect]
    helper, which is not among the sources: a class id, a confidence score
    and a bounding box (xmin, ymin, xmax, ymax) in pixel coordinates.  The
    script never computes with a score, it only carries it along. *)
Record BBox : Type := { xmin : Z; ymin : Z; xmax : Z; ymax : Z }.

Record Object : Type := { obj_id : Z; obj_score : Q; obj_bbox : BBox }.

(** [bbox[k]] on the four-field tuple. *)
Definition bbox_item (b : BBox) (k : Z) : result Z :=
  if (k =? 0) || (k =? -4) then Ok (xmin b)
  else if (k =? 1) || (k =? -3) then Ok (ymin b)
  else if (k =? 2) || (k =? -2) then Ok (xmax b)
  else if (k =? 3) || (k =? -1) then Ok (ymax b)
  else Raise IndexError.

(** ** The world the script runs in, and what it does to it *)

Record Args : Type := {
  arg_model : string;
  arg_input : option string;
  arg_labels : option string;
  arg_threshold : Q;
  arg_output : option string;
  arg_count : Z
}.

(** An argument of [print]. *)
Inductive pv : Type :=
| PStr (s : string)
| PInt (n : Z)
| PScore (q : Q)
| PBox (b : BBox).

Inductive event : Type :=
| Print (args : list pv)
| PrintTiming                    (* print('%.2f ms' % ...): a wall-clock reading *)
| AllocateTensors
| ImageOpen (path : string)
| SetInput (path : string)
| Invoke
| DrawRectangle (b : BBox)
| DrawText (x y : Z) (label : pv) (score : Q)
| ImageSave (path : string)
| ImageShow
| CallMethod (name : string) (arg : string).

(** The world outside the script: the files, and for every call into a
    library whether it returns and what. *)
Record World : Type := {
  fs : FileSystem;                                   (* open(path, 'r') *)
  glob : string -> list string;                      (* glob.glob(pattern) *)
  tflite_Interpreter : string -> result Interpreter; (* tflite.Interpreter(model_path=..) *)
  allocate_tensors_ok : Interpreter -> bool;         (* does allocate_tensors() return *)
  image_opens : string -> bool;                      (* does Image.open(path) succeed *)
  set_input_ok : Interpreter -> string -> bool;
    (* does detect.set_input, resizing that image, return *)
  invoke_ok : Interpreter -> string -> bool;
    (* does interpreter.invoke() return, the input being that image *)
  get_output_ok : Interpreter -> string -> Q -> bool;
    (* does detect.get_output return *)
  get_output : Interpreter -> string -> Q -> list Object;
    (* what detect.get_output returns after set_input on that image, at
       that threshold *)
  convert_ok : string -> bool;
    (* image.convert('RGB') and ImageDraw.Draw on the result *)
  draw_ok : event -> bool;
    (* does that draw.rectangle or draw.text call return *)
  save_ok : string -> string -> bool;                (* image.save(path) *)
  show_ok : string -> bool                           (* image.show() *)
}.

(** A computation: the events it caused, then its value or the exception
    that ended it. *)
Definition M (A : Type) : Type := list event * result A.

#[global] Instance M_ret : MRet M := fun A a => ([], Ok a).

#[global] Instance M_bind : MBind M := fun A B f m =>
  match m with
  | (t, Ok a) => let '(t', r) := f a in (t ++ t', r)
  | (t, Raise e) => (t, Raise e)
  end.

Definition emit (e : event) : M unit := ([e], Ok tt).
Definition raise {A} (e : exn) : M A := ([], Raise e).
Definition lift {A} (r : result A) : M A := ([], r).

(** A call into a library that returns or raises. *)
Definition check (ok : bool) : M unit :=
  if ok then mret tt else raise RuntimeFailure.

(** The same, the call being recorded as an event. *)
Definition call (e : event) (ok : bool) : M unit :=
  _ ← emit e; check ok.

Definition trace {A} (m : M A) : list event := fst m.
Definition outcome {A} (m : M A) : result A := snd m.

(** [for x in l: s = body(s, x)] *)
Fixpoint for_each {A S : Type} (body : S -> A -> M S) (l : list A) (s : S) : M S :=
  match l with
  | [] => mret s
  | x :: r => s' ← body s x; for_each body r s'
  end.

(** Truthiness of an optional string argument: [None] and [''] are false. *)
Definition truthy (o : option string) : bool :=
  match o with
  | Some (String _ _) => true
  | _ => false
  end.

(** ** draw_objects *)

Definition label_or_id (labels : gmap Z string) (k : Z) : pv :=
  match labels !! k with
  | Some l => PStr l
  | None => PInt k
  end.

Definition rectangle_of (obj : Object) : event := DrawRectangle (obj_bbox obj).

Definition text_of (labels : gmap Z string) (obj : Object) : event :=
  DrawText (xmin (obj_bbox obj) + 10) (ymin (obj_bbox obj) + 10)
    (label_or_id labels (obj_id obj)) (obj_score obj).

Definition draw_object (w : World) (labels : gmap Z string) (obj : Object) : M unit :=
  _ ← call (rectangle_of obj) (draw_ok w (rectangle_of obj));
  call (text_of labels obj) (draw_ok w (text_of labels obj)).

Definition draw_objects (w : World) (objs : list Object) (labels : gmap Z string)
  : M unit :=
  for_each (fun _ obj => draw_object w labels obj) objs tt.

(** ** main *)

(** The local variables of [main] that the loops change. *)
Record Locals : Type := {
  img_n : list string;
  img_id : list Z;
  img_x : list Z;
  img_y : list Z;
  img_w : list Z;
  img_h : list Z;
  img_score : list Q;
  objs : option (list Object);   (* unbound until the first assignment *)
  i : Z
}.

Definition init_locals : Locals :=
  {| img_n := []; img_id := []; img_x := []; img_y := []; img_w := [];
     img_h := []; img_score := []; objs := None; i := 0 |}.

Definition set_objs (o : option (list Object)) (st : Locals) : Locals :=
  {| img_n := img_n st; img_id := img_id st; img_x := img_x st;
     img_y := img_y st; img_w := img_w st; img_h := img_h st;
     img_score := img_score st; objs := o; i := i st |}.

Definition incr_i (st : Locals) : Locals :=
  {| img_n := img_n st; img_id := img_id st; img_x := img_x st;
     img_y := img_y st; img_w := img_w st; img_h := img_h st;
     img_score := img_score st; objs := objs st; i := i st + 1 |}.

(** The seven [append] calls at the end of the detection loop. *)
Definition append_detection (img : string) (obj : Object) (x y w h : Z)
    (st : Locals) : Locals :=
  {| img_n := img_n st ++ [img];
     img_id := img_id st ++ [obj_id obj];
     img_x := img_x st ++ [x];
     img_y := img_y st ++ [y];
     img_w := img_w st ++ [w];
     img_h := img_h st ++ [h];
     img_score := img_score st ++ [obj_score obj];
     objs := objs st; i := i st |}.

(** [for _ in range(count)]: invoke, time, decode, print the time. *)
Fixpoint inference_runs (w : World) (threshold : Q) (interpreter : Interpreter)
    (img : string) (n : nat) (st : Locals) : M Locals :=
  match n with
  | O => mret st
  | S k =>
      _ ← call Invoke (invoke_ok w interpreter img);
      _ ← check (get_output_ok w interpreter img threshold);
      let st' := set_objs (Some (get_output w interpreter img threshold)) st in
      _ ← emit PrintTiming;
      inference_runs w threshold interpreter img k st'
  end.

(** The body of [for obj in objs]. *)
Definition record_detection (labels : gmap Z string) (img : string)
    (st : Locals) (obj : Object) : M Locals :=
  _ ← emit (Print [label_or_id labels (obj_id obj)]);
  _ ← emit (Print [PStr "  id:    "; PInt (obj_id obj)]);
  _ ← emit (Print [PStr "  score: "; PScore (obj_score obj)]);
  _ ← emit (Print [PStr "  bbox:  "; PBox (obj_bbox obj)]);
  b2 ← lift (bbox_item (obj_bbox obj) 2);
  b0 ← lift (bbox_item (obj_bbox obj) 0);
  let w := b2 - b0 in
  b3 ← lift (bbox_item (obj_bbox obj) 3);
  b1 ← lift (bbox_item (obj_bbox obj) 1);
  let h := b3 - b1 in
  _ ← emit (Print [PStr "W:"; PInt w]);
  _ ← emit (Print [PStr "H:"; PInt h]);
  x ← lift (bbox_item (obj_bbox obj) 0);
  y ← lift (bbox_item (obj_bbox obj) 1);
  mret (append_detection img obj x y w h st).

(** Reading the local [objs]. *)
Definition read_objs (st : Locals) : M (list Object) :=
  match objs st with
  | Some l => mret l
  | None => raise UnboundLocalError
  end.

Definition no_objects_line : event := Print [PStr "No objects detected"].

(** Lines 107-119 of the loop body: open the image, hand it to the
    interpreter, run the inferences and decode. *)
Definition decode_image (w : World) (args : Args) (interpreter : Interpreter)
    (st : Locals) (img : string) : M Locals :=
  _ ← call (ImageOpen img) (image_opens w img);
  _ ← call (SetInput img) (set_input_ok w interpreter img);
  _ ← emit (Print [PStr "----INFERENCE TIME----"]);
  _ ← emit (Print [PStr "Note: The first inference is slow because it includes";
                   PStr "loading the model into Edge TPU memory."]);
  inference_runs w (arg_threshold args) interpreter img (Z.to_nat (arg_count args)) st.

(** Lines 121-141: print and record what [objs] holds. *)
Definition report_detections (labels : gmap Z string) (img : string)
    (st : Locals) : M Locals :=
  _ ← emit (Print [PStr "-------RESULTS--------"]);
  o ← read_objs st;
  _ ← (match o with [] => emit no_objects_line | _ => mret tt end);
  o ← read_objs st;
  st ← for_each (record_detection labels img) o st;
  _ ← emit (Print [PInt (i st)]);
  mret st.

(** Lines 143-147: the annotated copy, when [--output] is given. *)
Definition annotate_image (w : World) (args : Args) (labels : gmap Z string)
    (img : string) (st : Locals) : M unit :=
  if truthy (arg_output args) then
    _ ← check (convert_ok w img);
    o ← read_objs st;
    _ ← draw_objects w o labels;
    _ ← call (ImageSave (default "" (arg_output args)))
          (save_ok w img (default "" (arg_output args)));
    call ImageShow (show_ok w img)
  else mret tt.

(** The body of [for img in img_name]. *)
Definition process_image (w : World) (args : Args) (labels : gmap Z string)
    (interpreter : Interpreter) (st : Locals) (img : string) : M Locals :=
  st ← decode_image w args interpreter st img;
  st ← report_detections labels img st;
  _ ← annotate_image w args labels img st;
  mret (incr_i st).

(** A column of the table, or the file name paired with the columns. *)
Inductive cell : Type :=
| CName (s : string)
| CInts (l : list Z)
| CScores (l : list Q).

(** The dict literal built at index [k]: [img_n[k]] and the whole lists. *)
Definition img_dict_for (name : string) (st : Locals) : gmap string cell :=
  <["image_filename" := CName name]>
  (<["label_id" := CInts (img_id st)]>
  (<["x" := CInts (img_x st)]>
  (<["y" := CInts (img_y st)]>
  (<["w" := CInts (img_w st)]>
  (<["h" := CInts (img_h st)]>
  (<["confidence" := CScores (img_score st)]> ∅)))))).

Definition img_dict (st : Locals) (k : nat) : result (gmap string cell) :=
  match img_n st !! k with
  | Some name => Ok (img_dict_for name st)
  | None => Raise IndexError
  end.

(** [d.update(other)]: the keys of [other] are set in [d]. *)
Definition dict_update {V} (d other : gmap string V) : gmap string V := other ∪ d.

(** One pass of [for i in range(len(img_x))]. *)
Definition table_step (st : Locals) (img_csv : gmap string cell) (k : nat)
  : M (gmap string cell) :=
  d ← lift (img_dict st k);
  mret (dict_update img_csv d).

(** The table loop cut off after [n] passes. *)
Definition table_after (st : Locals) (n : nat) : M (gmap string cell) :=
  for_each (table_step st) (seq 0 n) ∅.

Definition build_table (st : Locals) : M (gmap string cell) :=
  table_after st (length (img_x st)).

(** The public attributes of a built-in [dict].  The double-underscore
    names it also has are left out: the script asks for none of them. *)
Definition dict_attributes : list string :=
  ["clear"; "copy"; "fromkeys"; "get"; "items"; "keys"; "pop"; "popitem";
   "setdefault"; "update"; "values"].

(** [d.name(arg)] on a built-in dict: the attribute is looked up first. *)
Definition dict_call_method (name arg : string) : M unit :=
  if bool_decide (name ∈ dict_attributes)
  then emit (CallMethod name arg)
  else raise AttributeError.

Definition images_pattern : string := "test_images/*.jpg".

(** Lines 91-93: labels, interpreter, tensors. *)
Definition setup (w : World) (args : Args) : M (gmap Z string * Interpreter) :=
  labels ← lift (if truthy (arg_labels args)
                 then load_labels (fs w) (default "" (arg_labels args))
                 else Ok ∅);
  interpreter ← lift (make_interpreter (tflite_Interpreter w) (arg_model args));
  _ ← call AllocateTensors (allocate_tensors_ok w interpreter);
  mret (labels, interpreter).

(** Lines 94-148: up to the end of the per-image loop. *)
Definition main_images (w : World) (args : Args) : M Locals :=
  '(labels, interpreter) ← setup w args;
  let img_name := glob w images_pattern in
  name253 ← lift (match img_name !! 253%nat with
                   | Some x => Ok x
                   | None => Raise IndexError
                   end);
  _ ← emit (Print [PStr name253]);
  for_each (process_image w args labels interpreter) img_name init_locals.

(** The whole of [main]. *)
Definition main (w : World) (args : Args) : M unit :=
  st ← main_images w args;
  img_csv ← build_table st;
  dict_call_method "to_csv" "test.csv".


(** ** Vocabulary of the statements *)

(** A non-empty run of the ASCII digits 0..9. *)
Definition ascii_digits (s : string) : bool :=
  match s with
  | EmptyString => false
  | _ => Str.forallb (Str.in_range 48 57) s
  end.

(** The number a run of ASCII digits denotes, most significant digit first. *)
Fixpoint decimal_from (acc : N) (s : string) : N :=
  match s with
  | EmptyString => acc
  | String c r => decimal_from (10 * acc + (Str.code c - 48))%N r
  end.

Definition decimal (s : string) : N := decimal_from 0 s.

(** The mapping [{i: ls[0], i+1: ls[1], ...}]. *)
Fixpoint seq_map (i : Z) (ls : list string) : gmap Z string :=
  match ls with
  | [] => ∅
  | l :: r => <[i := l]> (seq_map (i + 1) r)
  end.

(** No character of [s] is [sep]. *)
Definition lacks (sep : ascii) (s : string) : bool :=
  Str.forallb (fun c => negb (Ascii.eqb c sep)) s.

Definition no_newline (s : string) : bool :=
  Str.forallb (fun c => negb (Ascii.eqb c LF) && negb (Ascii.eqb c CR)) s.

(** A label that [strip] leaves alone and that fits on one line. *)
Definition clean_label (l : string) : Prop :=
  Str.strip l = l ∧ no_newline l = true.

(** A line terminator. *)
Definition nl : string := String LF EmptyString.

(** The pairs [(i, vals[0]), (i+1, vals[1]), ...]. *)
Fixpoint keyed_from (i : Z) (vals : list string) : list (Z * string) :=
  match vals with
  | [] => []
  | v :: r => (i, v) :: keyed_from (i + 1) r
  end.

(** The lines of the indexed format, cut at their space. *)
Fixpoint indexed_entries (i : N) (ls : list string) : list (string * string) :=
  match ls with
  | [] => []
  | l :: r => (Str.of_N i, l +:+ nl) :: indexed_entries (i + 1) r
  end.

(** Modelled from the spec: a writer of the label file; the repository has
    none.  This one writes the format "each line is <int> <label>,
    newline-separated", one line per key in increasing order from [i]. *)
Fixpoint write_labels_indexed (i : N) (ls : list string) : string :=
  match ls with
  | [] => EmptyString
  | l :: r =>
      Str.of_N i +:+ " " +:+ l +:+ String LF EmptyString
        +:+ write_labels_indexed (i + 1) r
  end.

(** Modelled from the spec: the writer of the other format of the label
    file, "a bare label" on each line, in key order. *)
Fixpoint write_labels_bare (ls : list string) : string :=
  match ls with
  | [] => EmptyString
  | l :: r => l +:+ String LF EmptyString +:+ write_labels_bare r
  end.

(** The bare format read back as such: the first label, cut at its first
    space if it has one, must not leave a run of digits in front. *)
Definition bare_readable (ls : list string) : Prop :=
  match ls with
  | [] => True
  | l :: _ =>
      match Str.split " " (Some 1%nat) l with
      | [tok; _] => Str.isdigit tok = false
      | _ => True
      end
  end.

(** What the indexed branch computes from well-formed lines: the key a
    run of digits denotes and the stripped rest of the line. *)
Definition entry_key (e : string * string) : Z := Z.of_N (decimal e.1).
Definition entry_line (e : string * string) : string := e.1 +:+ String " " e.2.

(** Setting one key, as the comprehension does for each pair in turn. *)
Definition put (m : gmap Z string) (kv : Z * string) : gmap Z string :=
  <[kv.1 := kv.2]> m.

(** The first character of a text is a digit. *)
Definition starts_with_digit (s : string) : bool :=
  match s with
  | String c _ => Str.isdigit_char c
  | EmptyString => false
  end.

(** The longest run of ASCII digits in front of a line. *)
Fixpoint leading_digits (s : string) : string :=
  match s with
  | String c r => if Str.in_range 48 57 c then String c (leading_digits r) else EmptyString
  | EmptyString => EmptyString
  end.

(** The claim about index files as the specification words it: whenever
    the first line starts with a digit, the result is keyed by the integer in
    front of each line. *)
Definition keyed_by_leading_integers (content : string) : Prop :=
  ∃ m, load_labels_text content = Ok m ∧
       ∀ line, line ∈ readlines content →
               is_Some (m !! Z.of_N (decimal (leading_digits line))).

(** The images a run opened, in order. *)
Fixpoint opened_images (t : list event) : list string :=
  match t with
  | [] => []
  | ImageOpen p :: r => p :: opened_images r
  | _ :: r => opened_images r
  end.

Definition is_inference (e : event) : bool :=
  match e with
  | Invoke | SetInput _ | ImageOpen _ => true
  | _ => false
  end.

Definition with_input (args : Args) (inp : option string) : Args :=
  {| arg_model := arg_model args; arg_input := inp; arg_labels := arg_labels args;
     arg_threshold := arg_threshold args; arg_output := arg_output args;
     arg_count := arg_count args |}.

(** The detections the per-image loop sees for the images of a list. *)
Definition detections_of (w : World) (args : Args) (interpreter : Interpreter)
    (imgs : list string) : list (string * Object) :=
  flat_map (fun img =>
    map (pair img) (get_output w interpreter img (arg_threshold args))) imgs.

(** The lists agree in length: one entry per recorded detection. *)
Definition aligned (st : Locals) : Prop :=
  length (img_n st) = length (img_x st).

(** A model argument with a device token: the path, "@", the token. *)
Definition with_device (path device : string) : string :=
  path +:+ String "@" device.

(** *** What one pass of the per-image loop prints and records *)

Fixpoint runs_trace (n : nat) : list event :=
  match n with
  | O => []
  | S k => Invoke :: PrintTiming :: runs_trace k
  end.

Definition width (b : BBox) : Z := xmax b - xmin b.
Definition height (b : BBox) : Z := ymax b - ymin b.

Definition detection_trace (labels : gmap Z string) (obj : Object) : list event :=
  [ Print [label_or_id labels (obj_id obj)];
    Print [PStr "  id:    "; PInt (obj_id obj)];
    Print [PStr "  score: "; PScore (obj_score obj)];
    Print [PStr "  bbox:  "; PBox (obj_bbox obj)];
    Print [PStr "W:"; PInt (width (obj_bbox obj))];
    Print [PStr "H:"; PInt (height (obj_bbox obj))] ].

(** One row more in every list: the image, the id, the corner, the
    extent and the score of a detection. *)
Definition recorded (img : string) (st : Locals) (obj : Object) : Locals :=
  append_detection img obj (xmin (obj_bbox obj)) (ymin (obj_bbox obj))
    (width (obj_bbox obj)) (height (obj_bbox obj)) st.

Definition record_all (img : string) (dets : list Object) (st : Locals) : Locals :=
  foldl (recorded img) st dets.

Definition draw_trace (labels : gmap Z string) (objs : list Object) : list event :=
  flat_map (fun obj => [rectangle_of obj; text_of labels obj]) objs.

Definition output_trace (args : Args) (labels : gmap Z string)
    (objs : list Object) : list event :=
  if truthy (arg_output args)
  then draw_trace labels objs ++ [ImageSave (default "" (arg_output args)); ImageShow]
  else [].

(** The value of the local [objs] after [n] inference runs. *)
Definition objs_after (decoded : list Object) (n : nat) (st : Locals)
  : option (list Object) :=
  match n with
  | O => objs st
  | S _ => Some decoded
  end.

(** The locals after [n] inference runs. *)
Definition after_runs (decoded : list Object) (n : nat) (st : Locals) : Locals :=
  match n with
  | O => st
  | S _ => set_objs (Some decoded) st
  end.

Definition image_header (img : string) (n : nat) : list event :=
  [ ImageOpen img; SetInput img;
    Print [PStr "----INFERENCE TIME----"];
    Print [PStr "Note: The first inference is slow because it includes";
           PStr "loading the model into Edge TPU memory."] ]
  ++ runs_trace n
  ++ [Print [PStr "-------RESULTS--------"]].

Definition image_trace (args : Args) (labels : gmap Z string) (img : string)
    (n : nat) (i0 : Z) (o : list Object) : list event :=
  image_header img n
  ++ (match o with [] => [no_objects_line] | _ => [] end)
  ++ flat_map (detection_trace labels) o
  ++ [Print [PInt i0]]
  ++ output_trace args labels o.

(** [st'] has the rows of [st] followed by one row per detection of [D]. *)
Definition extend (st : Locals) (D : list (string * Object)) (st' : Locals) : Prop :=
  img_n st' = img_n st ++ map fst D ∧
  img_id st' = img_id st ++ map (fun d => obj_id d.2) D ∧
  img_x st' = img_x st ++ map (fun d => xmin (obj_bbox d.2)) D ∧
  img_y st' = img_y st ++ map (fun d => ymin (obj_bbox d.2)) D ∧
  img_w st' = img_w st ++ map (fun d => width (obj_bbox d.2)) D ∧
  img_h st' = img_h st ++ map (fun d => height (obj_bbox d.2)) D ∧
  img_score st' = img_score st ++ map (fun d => obj_score d.2) D.

(** The per-image loop of [main] on a list of images. *)
Definition image_loop (w : World) (args : Args) (labels : gmap Z string)
    (interpreter : Interpreter) (imgs : list string) (st : Locals) : M Locals :=
  for_each (process_image w args labels interpreter) imgs st.

(** The events the per-image loop can cause. *)
Definition loop_event (e : event) : bool :=
  match e with
  | CallMethod _ _ | AllocateTensors => false
  | _ => true
  end.


(** *** Sample runs *)

Definition image_name (k : nat) : string :=
  "test_images/" +:+ Str.of_N (N.of_nat k) +:+ ".jpg".

(** A directory of 254 images, the fewest [main] gets past line 105 with. *)
Definition many_images : list string := map image_name (seq 0 254).

Definition sample_object : Object :=
  {| obj_id := 17; obj_score := (9 # 10)%Q;
     obj_bbox := {| xmin := 10; ymin := 20; xmax := 110; ymax := 220 |} |}.

Definition other_object : Object :=
  {| obj_id := 3; obj_score := (1 # 2)%Q;
     obj_bbox := {| xmin := 0; ymin := 5; xmax := 40; ymax := 25 |} |}.

Definition default_args : Args :=
  {| arg_model := "model.tflite"; arg_input := None; arg_labels := None;
     arg_threshold := (4 # 10)%Q; arg_output := None; arg_count := 5 |}.

(** A world with the given images under the pattern of [main], no other
    file, a runtime that loads every model and a decoder stub. *)
Definition world_of (imgs : list string) (detect : string -> list Object) : World :=
  {| fs := fun _ => Raise FileNotFoundError;
     glob := fun pat => if String.eqb pat images_pattern then imgs else [];
     tflite_Interpreter := fun p => Ok {| model_path := p |};
     allocate_tensors_ok := fun _ => true;
     image_opens := fun _ => true;
     set_input_ok := fun _ _ => true;
     invoke_ok := fun _ _ => true;
     get_output_ok := fun _ _ _ => true;
     get_output := fun _ img _ => detect img;
     convert_ok := fun _ => true;
     draw_ok := fun _ => true;
     save_ok := fun _ _ => true;
     show_ok := fun _ => true |}.

(** Two detections on the first image, one on the second, none elsewhere. *)
Definition detect_on_first_two (img : string) : list Object :=
  if String.eqb img (image_name 0) then [sample_object; other_object]
  else if String.eqb img (image_name 1) then [other_object]
  else [].

(** The locals that run ends its per-image loop with. *)
Definition first_two_rows : Locals :=
  {| img_n := [image_name 0; image_name 0; image_name 1];
     img_id := [17; 3; 3];
     img_x := [10; 0; 0];
     img_y := [20; 5; 5];
     img_w := [100; 40; 40];
     img_h := [200; 20; 20];
     img_score := [(9 # 10)%Q; (1 # 2)%Q; (1 # 2)%Q];
     objs := Some [];
     i := 254 |}.

(** The locals after 254 images without a detection. *)
Definition no_rows : Locals :=
  {| img_n := []; img_id := []; img_x := []; img_y := []; img_w := [];
     img_h := []; img_score := []; objs := Some []; i := 254 |}.

(** The default arguments with a labels file named. *)
Definition labelled_args : Args :=
  {| arg_model := "model.tflite"; arg_input := None;
     arg_labels := Some "labels.txt";
     arg_threshold := (4 # 10)%Q; arg_output := None; arg_count := 5 |}.

Definition one_image : list string := ["test_images/a.jpg"].

(** *** Counting what a run did *)

(** How often the interpreter was invoked. *)
Fixpoint count_invokes (t : list event) : nat :=
  match t with
  | [] => O
  | Invoke :: r => S (count_invokes r)
  | _ :: r => count_invokes r
  end.

(** The paths annotated images were saved to, in order. *)
Fixpoint saved_paths (t : list event) : list string :=
  match t with
  | [] => []
  | ImageSave p :: r => p :: saved_paths r
  | _ :: r => saved_paths r
  end.

(** Drawing on, saving or showing an image. *)
Definition is_output_event (e : event) : bool :=
  match e with
  | DrawRectangle _ | DrawText _ _ _ _ | ImageSave _ | ImageShow => true
  | _ => false
  end.

(** What a pass of the per-image loop over [imgs] causes when every image
    opens and [n >= 1] inferences run on each, the counter starting at [i0]. *)
Fixpoint loop_trace (w : World) (args : Args) (labels : gmap Z string)
    (interp : Interpreter) (n : nat) (i0 : Z) (imgs : list string) : list event :=
  match imgs with
  | [] => []
  | img :: r =>
      image_trace args labels img n i0 (get_output w interp img (arg_threshold args))
        ++ loop_trace w args labels interp n (i0 + 1) r
  end.

(** The default arguments with an output path and with no inference run. *)
Definition output_args : Args :=
  {| arg_model := "model.tflite"; arg_input := None; arg_labels := None;
     arg_threshold := (4 # 10)%Q; arg_output := Some "out.jpg"; arg_count := 1 |}.

Definition zero_count_args : Args :=
  {| arg_model := "model.tflite"; arg_input := None; arg_labels := None;
     arg_threshold := (4 # 10)%Q; arg_output := None; arg_count := 0 |}.

(** A world like [world_of], in which one image alone cannot be opened. *)
Definition world_unreadable (imgs : list string) (bad : string) : World :=
  {| fs := fun _ => Raise FileNotFoundError;
     glob := fun pat => if String.eqb pat images_pattern then imgs else [];
     tflite_Interpreter := fun p => Ok {| model_path := p |};
     allocate_tensors_ok := fun _ => true;
     image_opens := fun img => negb (String.eqb img bad);
     set_input_ok := fun _ _ => true;
     invoke_ok := fun _ _ => true;
     get_output_ok := fun _ _ _ => true;
     get_output := fun _ _ _ => [];
     convert_ok := fun _ => true;
     draw_ok := fun _ => true;
     save_ok := fun _ _ => true;
     show_ok := fun _ => true |}.

(** A list of calls cut after the first one that does not return. *)
Fixpoint until_failure (ok : event -> bool) (t : list event) : list event :=
  match t with
  | [] => []
  | e :: r => if ok e then e :: until_failure ok r else [e]
  end.

(** Every call into a library that a pass over [img] makes returns, the
    ones of the annotated copy counting when [--output] is given. *)
Definition pass_calls_ok (w : World) (args : Args) (labels : gmap Z string)
    (interp : Interpreter) (img : string) : Prop :=
  image_opens w img = true ∧
  set_input_ok w interp img = true ∧
  invoke_ok w interp img = true ∧
  get_output_ok w interp img (arg_threshold args) = true ∧
  (truthy (arg_output args) = true →
   convert_ok w img = true ∧
   forallb (draw_ok w)
     (draw_trace labels (get_output w interp img (arg_threshold args))) = true ∧
   save_ok w img (default "" (arg_output args)) = true ∧
   show_ok w img = true).

(** Any event but an invocation of the interpreter. *)
Definition not_invoke (e : event) : bool :=
  match e with
  | Invoke => false
  | _ => true
  end.

(** The superscript digits of Latin-1: two, three and one. *)
Definition superscript_digit (c : ascii) : bool :=
  Str.in_range 178 179 c || Str.in_range 185 185 c.


(** * Properties *)

(** ** Characters and digit strings *)

Lemma in_range_spec lo hi c :
  Str.in_range lo hi c = true ↔ (lo ≤ Str.code c ≤ hi)%N.
Proof.
  unfold Str.in_range. rewrite andb_true_iff, !N.leb_le. tauto.
Qed.

Lemma in_range_false lo hi c :
  Str.in_range lo hi c = false ↔ (Str.code c < lo ∨ hi < Str.code c)%N.
Proof.
  unfold Str.in_range. rewrite andb_false_iff, !N.leb_gt. tauto.
Qed.

Lemma digit_not_int_space c :
  Str.in_range 48 57 c = true → Str.int_space c = false.
Proof.
  rewrite in_range_spec. intros H. unfold Str.int_space.
  rewrite !orb_false_iff, !in_range_false. lia.
Qed.

Lemma digit_is_digit c :
  Str.in_range 48 57 c = true → Str.isdigit_char c = true.
Proof. intros H. unfold Str.isdigit_char. by rewrite H. Qed.

Lemma digit_not_char c (x : ascii) :
  Str.in_range 48 57 c = true →
  Str.in_range 48 57 x = false → Ascii.eqb c x = false.
Proof.
  intros Hc Hx. destruct (Ascii.eqb_spec c x) as [->|]; [congruence | done].
Qed.

Lemma int_digits_decimal s acc :
  ascii_digits s = true →
  Str.int_digits acc s = Some (decimal_from acc s).
Proof.
  revert acc. induction s as [|c r IH]; intros acc H; [done|].
  simpl in H. apply andb_true_iff in H as [Hc Hr].
  simpl. unfold Str.digit_val. rewrite Hc.
  destruct r as [|c' r']; [done|].
  simpl in Hr. apply andb_true_iff in Hr as [Hc' Hr'].
  cbn [Str.forallb]. rewrite (digit_not_int_space c' Hc'). cbn [andb].
  rewrite (digit_not_char c' "_" Hc' eq_refl).
  apply IH. simpl. by rewrite Hc', Hr'.
Qed.

Lemma to_int_digits s :
  ascii_digits s = true → Str.to_int s = Some (Z.of_N (decimal s)).
Proof.
  intros H. unfold Str.to_int, decimal.
  destruct s as [|c r]; [done|].
  assert (Hc : Str.in_range 48 57 c = true).
  { simpl in H. by apply andb_true_iff in H as [? _]. }
  cbn [Str.lstrip_with]. rewrite (digit_not_int_space c Hc).
  rewrite (digit_not_char c "+" Hc eq_refl), (digit_not_char c "-" Hc eq_refl).
  by rewrite (int_digits_decimal _ _ H).
Qed.

Lemma ascii_digits_isdigit s : ascii_digits s = true → Str.isdigit s = true.
Proof.
  destruct s as [|c r]; [done|]. unfold ascii_digits, Str.isdigit.
  generalize (String c r). clear. intros s. induction s as [|c r IH]; [done|].
  simpl. rewrite !andb_true_iff. intros [Hc Hr]. split; [by apply digit_is_digit | auto].
Qed.

Lemma decimal_from_pos d p :
  decimal_from (N.pos p) (NilEmpty.string_of_uint d) = N.pos (Pos.of_uint_acc d p).
Proof.
  revert p. induction d; intros p; simpl; [done | ..];
    (etransitivity; [|apply IHd]); f_equal; unfold Str.code; simpl; lia.
Qed.

Lemma decimal_string_of_uint d :
  decimal_from 0 (NilEmpty.string_of_uint d) = Pos.of_uint d.
Proof.
  induction d; simpl; [done | exact IHd | ..];
    (etransitivity; [|apply decimal_from_pos]); f_equal.
Qed.

Lemma decimal_of_N n : decimal (Str.of_N n) = n.
Proof.
  unfold decimal, Str.of_N. rewrite decimal_string_of_uint.
  apply DecimalN.Unsigned.of_to.
Qed.

Lemma string_of_uint_digits d :
  Str.forallb (Str.in_range 48 57) (NilEmpty.string_of_uint d) = true.
Proof. induction d; simpl; [done | ..]; exact IHd. Qed.

Lemma ascii_digits_of_N n : ascii_digits (Str.of_N n) = true.
Proof.
  unfold ascii_digits. pose proof (string_of_uint_digits (N.to_uint n)) as H.
  unfold Str.of_N. destruct (NilEmpty.string_of_uint (N.to_uint n)) eqn:E; [|done].
  exfalso. destruct n as [|p]; [discriminate E|].
  pose proof (decimal_of_N (N.pos p)) as D. unfold decimal, Str.of_N in D.
  rewrite E in D. discriminate D.
Qed.

(** ** Appending, splitting and stripping *)

Lemma str_forallb_app p a b :
  Str.forallb p (a +:+ b) = Str.forallb p a && Str.forallb p b.
Proof. induction a as [|c a IH]; simpl; [done|]. by rewrite IH, andb_assoc. Qed.

Lemma append_assoc (a b c : string) : (a +:+ b) +:+ c = a +:+ (b +:+ c).
Proof. induction a as [|x a IH]; simpl; [done|]. by rewrite IH. Qed.

Lemma append_empty_r (a : string) : a +:+ "" = a.
Proof. induction a as [|x a IH]; simpl; [done|]. by rewrite IH. Qed.

Lemma split_zero sep s : Str.split sep (Some 0%nat) s = [s].
Proof.
  induction s as [|c r IH]; [done|].
  cbn [Str.split]. rewrite andb_false_r. by rewrite IH.
Qed.

Lemma split_lacks sep m s : lacks sep s = true → Str.split sep m s = [s].
Proof.
  unfold lacks. induction s as [|c r IH]; [done|].
  simpl. rewrite andb_true_iff, negb_true_iff. intros [Hc Hr].
  rewrite Hc. cbn [andb]. by rewrite IH.
Qed.

Lemma split_once sep tok rest :
  lacks sep tok = true →
  Str.split sep (Some 1%nat) (tok +:+ String sep rest) = [tok; rest].
Proof.
  unfold lacks. induction tok as [|c r IH]; simpl.
  - intros _. rewrite Ascii.eqb_refl. cbn [andb]. by rewrite split_zero.
  - rewrite andb_true_iff, negb_true_iff. intros [Hc Hr].
    rewrite Hc. cbn [andb]. by rewrite IH.
Qed.

Lemma split_all_first sep tok rest :
  lacks sep tok = true →
  Str.split sep None (tok +:+ String sep rest) = tok :: Str.split sep None rest.
Proof.
  unfold lacks. induction tok as [|c r IH]; simpl.
  - intros _. by rewrite Ascii.eqb_refl.
  - rewrite andb_true_iff, negb_true_iff. intros [Hc Hr].
    rewrite Hc. cbn [andb]. by rewrite IH.
Qed.

Lemma digits_lack_space s :
  Str.forallb (Str.in_range 48 57) s = true → lacks " " s = true.
Proof.
  unfold lacks. induction s as [|c r IH]; [done|]. simpl.
  rewrite !andb_true_iff. intros [Hc Hr]. split; [|auto].
  apply negb_true_iff. by apply digit_not_char.
Qed.

Lemma rstrip_snoc p s c :
  p c = true →
  Str.rstrip_with p (s +:+ String c "") = Str.rstrip_with p s.
Proof.
  intros Hc. induction s as [|x s IH]; simpl; [by rewrite Hc|]. by rewrite IH.
Qed.

Lemma strip_snoc s c :
  Str.isspace c = true → Str.strip (s +:+ String c "") = Str.strip s.
Proof.
  intros Hc. unfold Str.strip. induction s as [|x s IH]; simpl.
  - by rewrite Hc.
  - destruct (Str.isspace x); [exact IH|].
    change (String x (s +:+ String c "")) with (String x s +:+ String c "").
    by apply rstrip_snoc.
Qed.

Lemma strip_line l : Str.strip (l +:+ String LF "") = Str.strip l.
Proof. by apply strip_snoc. Qed.

(** ** Reading lines back *)

Lemma no_newline_app a b :
  no_newline (a +:+ b) = no_newline a && no_newline b.
Proof. apply str_forallb_app. Qed.

Lemma universal_newlines_app l rest :
  no_newline l = true →
  universal_newlines (l +:+ String LF rest) = l +:+ String LF (universal_newlines rest).
Proof.
  unfold no_newline. induction l as [|c r IH]; simpl; [done|].
  rewrite !andb_true_iff, !negb_true_iff. intros [[_ Hc] Hr].
  rewrite Hc. by rewrite IH.
Qed.

Lemma split_keepends_app l rest :
  no_newline l = true →
  split_keepends (l +:+ String LF rest) = (l +:+ String LF "") :: split_keepends rest.
Proof.
  unfold no_newline. induction l as [|c r IH]; simpl; [done|].
  rewrite !andb_true_iff, !negb_true_iff. intros [[Hc _] Hr].
  rewrite Hc. by rewrite IH.
Qed.

Lemma digits_no_newline s :
  Str.forallb (Str.in_range 48 57) s = true → no_newline s = true.
Proof.
  unfold no_newline. induction s as [|c r IH]; [done|]. simpl.
  rewrite !andb_true_iff. intros [Hc Hr]. repeat split; [| |auto];
    apply negb_true_iff; by apply digit_not_char.
Qed.

(** ** Dictionaries built by the two comprehensions *)

Lemma seq_map_lookup ls i k :
  seq_map i ls !! k =
    if decide (i ≤ k < i + Z.of_nat (length ls)) then ls !! Z.to_nat (k - i) else None.
Proof.
  revert i. induction ls as [|l r IH]; intros i; simpl.
  - rewrite lookup_empty. case_decide; [lia | done].
  - destruct (decide (i = k)) as [->|Hne].
    + rewrite lookup_insert_eq. rewrite decide_True by lia.
      by replace (k - k) with 0 by lia.
    + rewrite lookup_insert_ne by done. rewrite IH.
      repeat case_decide; try lia; try done.
      replace (Z.to_nat (k - i)) with (S (Z.to_nat (k - (i + 1)))) by lia. done.
Qed.

Lemma dict_of_enumerate_lookup ls i acc k :
  dict_of_enumerate i ls acc !! k =
    if decide (i ≤ k < i + Z.of_nat (length ls))
    then Str.strip <$> ls !! Z.to_nat (k - i)
    else acc !! k.
Proof.
  revert i acc. induction ls as [|l r IH]; intros i acc; simpl.
  - case_decide; [lia | done].
  - rewrite IH. destruct (decide (i = k)) as [->|Hne].
    + rewrite decide_False by lia. rewrite lookup_insert_eq.
      rewrite decide_True by lia. by replace (k - k) with 0 by lia.
    + rewrite lookup_insert_ne by done.
      repeat case_decide; try lia; try done.
      replace (Z.to_nat (k - i)) with (S (Z.to_nat (k - (i + 1)))) by lia. done.
Qed.

Lemma dict_of_enumerate_seq_map ls :
  dict_of_enumerate 0 ls ∅ = seq_map 0 (Str.strip <$> ls).
Proof.
  apply map_eq. intros k.
  rewrite dict_of_enumerate_lookup, seq_map_lookup, length_fmap, list_lookup_fmap.
  by case_decide.
Qed.

Lemma foldl_put_absent kvs acc k :
  k ∉ kvs.*1 → foldl put acc kvs !! k = acc !! k.
Proof.
  revert acc. induction kvs as [|[k0 v0] r IH]; intros acc H; simpl; [done|].
  simpl in H. apply not_elem_of_cons in H as [Hne Hr].
  rewrite IH by done. unfold put. simpl. by rewrite lookup_insert_ne.
Qed.

Lemma foldl_put_is_Some kvs acc k :
  is_Some (foldl put acc kvs !! k) ↔ is_Some (acc !! k) ∨ k ∈ kvs.*1.
Proof.
  revert acc. induction kvs as [|[k0 v0] r IH]; intros acc; simpl.
  - rewrite elem_of_nil. tauto.
  - rewrite IH. unfold put. simpl. rewrite elem_of_cons.
    destruct (decide (k0 = k)) as [->|Hne].
    + rewrite lookup_insert_eq. split; [tauto|]. intros _. left. by eexists.
    + rewrite lookup_insert_ne by done. split; [tauto|].
      intros [?|[?|?]]; [tauto | congruence | tauto].
Qed.

Lemma foldl_put_last kvs acc j k v :
  kvs !! j = Some (k, v) →
  (∀ j' kv, (j < j')%nat → kvs !! j' = Some kv → kv.1 ≠ k) →
  foldl put acc kvs !! k = Some v.
Proof.
  revert acc j. induction kvs as [|[k0 v0] r IH]; intros acc j Hj Hlast; [done|].
  destruct j as [|j]; simpl in *.
  - injection Hj as -> ->. rewrite foldl_put_absent.
    + unfold put. simpl. by rewrite lookup_insert_eq.
    + intros Hin. apply list_elem_of_fmap in Hin as [[k' v'] [-> Hin]].
      apply list_elem_of_lookup in Hin as [n Hn].
      apply (Hlast (S n) (k', v')); [lia | done | done].
  - apply (IH _ j); [done|]. intros j' kv Hlt Hkv.
    apply (Hlast (S j') kv); [lia | done].
Qed.

Lemma dict_of_pairs_entries entries acc :
  Forall (fun e => ascii_digits e.1 = true) entries →
  dict_of_pairs (map (fun e : string * string => [e.1; e.2]) entries) acc =
    Ok (foldl put acc (map (fun e => (entry_key e, Str.strip e.2)) entries)).
Proof.
  intros H. revert acc. induction H as [|[tok rest] r Htok Hr IH]; intros acc; [done|].
  simpl in *. rewrite (to_int_digits tok Htok). by rewrite IH.
Qed.

Lemma split_entry_line e :
  ascii_digits e.1 = true →
  Str.split " " (Some 1%nat) (entry_line e) = [e.1; e.2].
Proof.
  intros H. unfold entry_line. apply split_once, digits_lack_space.
  unfold ascii_digits in H. by destruct (e.1).
Qed.

(** ** load_labels *)

Lemma split_nonempty sep m s : ∃ h t, Str.split sep m s = h :: t.
Proof.
  revert m. induction s as [|c r IH]; intros m; simpl; [by eauto|].
  destruct (_ && _); [by eauto|].
  destruct (IH m) as (h & t & ->). by eauto.
Qed.

Lemma split_head sep m c r h t :
  Str.split sep m (String c r) = h :: t → h = "" ∨ ∃ h', h = String c h'.
Proof.
  simpl. destruct (_ && _).
  - intros [= <- _]. by left.
  - destruct (split_nonempty sep m r) as (h0 & t0 & ->).
    intros [= <- _]. right. by eexists.
Qed.

Lemma split_keepends_head c r l ls :
  split_keepends (String c r) = l :: ls → ∃ l', l = String c l'.
Proof.
  simpl. destruct (Ascii.eqb c LF).
  - intros [= <- _]. by eexists.
  - destruct (split_keepends r); intros [= <- _]; by eexists.
Qed.

Lemma universal_newlines_head c r :
  ∃ c' r', universal_newlines (String c r) = String c' r' ∧ (c' = c ∨ c' = LF).
Proof.
  simpl. destruct (Ascii.eqb c CR).
  - destruct r as [|c1 r1]; [by eauto|]. destruct (Ascii.eqb c1 LF); by eauto.
  - by eauto.
Qed.

Lemma first_token_not_digits content line0 ls tok t :
  starts_with_digit content = false →
  readlines content = line0 :: ls →
  Str.split " " (Some 1%nat) line0 = tok :: t →
  Str.isdigit tok = false.
Proof.
  intros Hd Hl Ht. destruct content as [|c r]; [done|].
  simpl in Hd. unfold readlines in Hl.
  destruct (universal_newlines_head c r) as (c' & r' & E & Hc').
  rewrite E in Hl. apply split_keepends_head in Hl as [l' ->].
  apply split_head in Ht as [->|[h' ->]]; [done|].
  simpl. destruct Hc' as [->| ->]; [by rewrite Hd | done].
Qed.

(** C3, as the code has it.  A file in which every line is a run of ASCII
    digits, one space and a rest is loaded as the mapping from the number
    each run denotes to the stripped rest, the last line winning where a
    number repeats; a file whose first character is no digit is loaded as
    the mapping from the line number, counted from 0, to the stripped line;
    the empty file is loaded as the empty mapping. *)
Theorem load_labels_cases (content : string) :
  (∀ entries,
     readlines content = map entry_line entries →
     Forall (fun e => ascii_digits e.1 = true) entries →
     ∃ m, load_labels_text content = Ok m ∧
          (∀ k, is_Some (m !! k) ↔ k ∈ map entry_key entries) ∧
          (∀ j e, entries !! j = Some e →
                  (∀ j' e', (j < j')%nat → entries !! j' = Some e' →
                            entry_key e' ≠ entry_key e) →
                  m !! entry_key e = Some (Str.strip e.2))) ∧
  (starts_with_digit content = false →
     ∃ m, load_labels_text content = Ok m ∧
          ∀ k, m !! k =
               if decide (0 ≤ k) then Str.strip <$> readlines content !! Z.to_nat k
               else None) ∧
  (content = "" → load_labels_text content = Ok ∅).
Proof.
  split; [|split].
  - intros entries Hlines Hall.
    set (kvs := map (fun e => (entry_key e, Str.strip e.2)) entries).
    exists (foldl put ∅ kvs).
    assert (Hload : load_labels_text content = Ok (foldl put ∅ kvs)).
    { unfold load_labels_text, load_labels_lines. rewrite Hlines.
      destruct entries as [|e0 es]; [done|].
      cbn [map]. inversion Hall as [|? ? H0 Hes]; subst.
      rewrite (split_entry_line e0 H0). cbn [item0].
      rewrite (ascii_digits_isdigit _ H0).
      change (entry_line e0 :: map entry_line es) with (map entry_line (e0 :: es)).
      rewrite map_map.
      rewrite (map_ext_Forall _ (fun e : string * string => [e.1; e.2])).
      - exact (dict_of_pairs_entries (e0 :: es) ∅ Hall).
      - eapply Forall_impl; [exact Hes|]. intros e He. by apply split_entry_line. }
    split; [done|]. split.
    + intros k. rewrite foldl_put_is_Some. rewrite lookup_empty.
      unfold kvs. rewrite <- list_fmap_compose.
      split; [intros [[? [=]]|H]; exact H | by right].
    + intros j e Hj Hlast. apply (foldl_put_last kvs ∅ j).
      * unfold kvs. change map with (@fmap list _) at 1.
        by rewrite list_lookup_fmap, Hj.
      * intros j' kv Hlt Hkv. unfold kvs in Hkv.
        change map with (@fmap list _) in Hkv.
        rewrite list_lookup_fmap in Hkv.
        destruct (entries !! j') as [e'|] eqn:E; [|done].
        injection Hkv as <-. simpl. by apply (Hlast j').
  - intros Hd. exists (dict_of_enumerate 0 (readlines content) ∅).
    split.
    + unfold load_labels_text, load_labels_lines.
      destruct (readlines content) as [|line0 ls] eqn:E; [done|].
      destruct (split_nonempty " " (Some 1%nat) line0) as (tok & t & Ht).
      rewrite Ht. cbn [item0].
      by rewrite (first_token_not_digits content line0 ls tok t Hd E Ht).
    + intros k. rewrite dict_of_enumerate_lookup, lookup_empty.
      repeat case_decide; try lia; try done.
      * by replace (k - 0) with k by lia.
      * symmetry. replace (k - 0) with k in * by lia.
        rewrite fmap_None. apply lookup_ge_None. lia.
  - by intros ->.
Qed.

Lemma load_labels_cases_witness :
  (∃ m, load_labels_text ("0 cat" +:+ nl +:+ "1 dog" +:+ nl) = Ok m ∧
        m !! 0 = Some "cat" ∧ m !! 1 = Some "dog") ∧
  (∃ m, load_labels_text ("cat" +:+ nl +:+ "dog") = Ok m ∧
        m !! 0 = Some "cat" ∧ m !! 1 = Some "dog" ∧ m !! 2 = None) ∧
  load_labels_text "" = Ok ∅.
Proof.
  split; [|split].
  - destruct (proj1 (load_labels_cases ("0 cat" +:+ nl +:+ "1 dog" +:+ nl))
                [("0", "cat" +:+ nl); ("1", "dog" +:+ nl)] eq_refl)
      as (m & Hm & _ & Hlast).
    { repeat constructor. }
    exists m. split; [exact Hm|]. split.
    + apply (Hlast 0%nat ("0", "cat" +:+ nl) eq_refl).
      intros [|[|j']] e' Hlt He'; [lia | | discriminate He'].
      injection He' as <-. discriminate.
    + apply (Hlast 1%nat ("1", "dog" +:+ nl) eq_refl).
      intros [|[|j']] e' Hlt He'; [lia | lia | discriminate He'].
  - destruct (proj1 (proj2 (load_labels_cases ("cat" +:+ nl +:+ "dog"))) eq_refl)
      as (m & Hm & Hk).
    exists m. split; [exact Hm|].
    split; [exact (Hk 0) | split; [exact (Hk 1) | exact (Hk 2)]].
  - exact (proj2 (proj2 (load_labels_cases "")) eq_refl).
Defined.

(** C3 as worded fails: the file "7up" opens with a digit, yet its only
    line is stored under the line number 0 and nothing under 7. *)
Lemma load_labels_leading_digit_counterexample :
  starts_with_digit "7up" = true ∧
  load_labels_text "7up" = Ok {[ 0 := "7up" ]} ∧
  ¬ keyed_by_leading_integers "7up" ∧
  starts_with_digit ("0 a" +:+ nl +:+ "b") = true ∧
  load_labels_text ("0 a" +:+ nl +:+ "b") = Raise ValueError.
Proof.
  split; [done|]. split; [done|]. split; [|done].
  intros (m & Hm & Hk). injection Hm as <-.
  destruct (Hk "7up") as [v Hv].
  - apply list_elem_of_In. by left.
  - vm_compute in Hv. discriminate Hv.
Qed.

(** ** Writing a label file and loading it again *)

Lemma readlines_line x rest :
  no_newline x = true →
  readlines (x +:+ String LF rest) = (x +:+ nl) :: readlines rest.
Proof.
  intros H. unfold readlines.
  rewrite (universal_newlines_app _ _ H). by apply split_keepends_app.
Qed.

Lemma write_indexed_cons i l r :
  write_labels_indexed i (l :: r) =
    (Str.of_N i +:+ String " " l) +:+ String LF (write_labels_indexed (i + 1) r).
Proof. simpl. by rewrite append_assoc. Qed.

Lemma of_N_digits n : Str.forallb (Str.in_range 48 57) (Str.of_N n) = true.
Proof. apply string_of_uint_digits. Qed.

Lemma readlines_write_indexed ls i :
  Forall clean_label ls →
  readlines (write_labels_indexed i ls) = map entry_line (indexed_entries i ls).
Proof.
  intros H. revert i. induction H as [|l r [_ Hl] Hr IH]; intros i; [done|].
  rewrite write_indexed_cons, readlines_line.
  - cbn [indexed_entries map]. rewrite IH. f_equal.
    unfold entry_line. cbn [fst snd]. by rewrite append_assoc.
  - rewrite no_newline_app. apply andb_true_iff. split.
    + apply digits_no_newline, of_N_digits.
    + exact Hl.
Qed.

Lemma readlines_write_bare ls :
  Forall clean_label ls →
  readlines (write_labels_bare ls) = map (fun l => l +:+ nl) ls.
Proof.
  induction 1 as [|l r [_ Hl] Hr IH]; [done|].
  cbn [write_labels_bare map]. rewrite <- IH. exact (readlines_line l _ Hl).
Qed.

Lemma foldl_put_keyed_lookup vals i acc k :
  foldl put acc (keyed_from i vals) !! k =
    if decide (i ≤ k < i + Z.of_nat (length vals))
    then vals !! Z.to_nat (k - i)
    else acc !! k.
Proof.
  revert i acc. induction vals as [|v r IH]; intros i acc; simpl.
  - case_decide; [lia | done].
  - rewrite IH. unfold put. cbn [fst snd].
    destruct (decide (i = k)) as [->|Hne].
    + rewrite decide_False by lia. rewrite lookup_insert_eq.
      rewrite decide_True by lia. by replace (k - k) with 0 by lia.
    + rewrite lookup_insert_ne by done.
      repeat case_decide; try lia; try done.
      replace (Z.to_nat (k - i)) with (S (Z.to_nat (k - (i + 1)))) by lia. done.
Qed.

Lemma indexed_entries_keyed ls i :
  Forall clean_label ls →
  map (fun e => (entry_key e, Str.strip e.2)) (indexed_entries i ls) =
    keyed_from (Z.of_N i) ls.
Proof.
  intros H. revert i. induction H as [|l r [Hl _] Hr IH]; intros i; [done|].
  cbn [indexed_entries map keyed_from]. rewrite IH.
  unfold entry_key. cbn [fst snd]. rewrite decimal_of_N.
  unfold nl. rewrite strip_line, Hl.
  by replace (Z.of_N (i + 1)) with (Z.of_N i + 1) by lia.
Qed.

Lemma indexed_entries_digits ls i :
  Forall (fun e => ascii_digits e.1 = true) (indexed_entries i ls).
Proof.
  revert i. induction ls as [|l r IH]; intros i; constructor; [|apply IH].
  apply ascii_digits_of_N.
Qed.

Lemma lacks_or_cut sep s :
  lacks sep s = true ∨
  ∃ tok rest, lacks sep tok = true ∧ s = tok +:+ String sep rest.
Proof.
  induction s as [|c r IH]; [by left|].
  destruct (Ascii.eqb_spec c sep) as [->|Hne].
  - right. exists "", r. by split.
  - destruct IH as [H|(tok & rest & H & ->)].
    + left. unfold lacks in *. simpl. rewrite H.
      by destruct (Ascii.eqb_spec c sep).
    + right. exists (String c tok), rest. split; [|done].
      unfold lacks in *. simpl. rewrite H.
      by destruct (Ascii.eqb_spec c sep).
Qed.

Lemma isdigit_line l : Str.isdigit (l +:+ nl) = false.
Proof.
  unfold Str.isdigit. destruct (l +:+ nl) eqn:E; [done|]. rewrite <- E.
  rewrite str_forallb_app. simpl. by rewrite andb_false_r.
Qed.

Lemma first_token_bare l0 r :
  bare_readable (l0 :: r) →
  ∃ tok t, Str.split " " (Some 1%nat) (l0 +:+ nl) = tok :: t ∧ Str.isdigit tok = false.
Proof.
  unfold bare_readable. destruct (lacks_or_cut " " l0) as [H|(tok & rest & H & ->)].
  - intros _. exists (l0 +:+ nl), []. split; [|apply isdigit_line].
    apply split_lacks. unfold lacks in *. rewrite str_forallb_app, H. done.
  - rewrite (split_once _ _ _ H). intros Htok.
    exists tok, [rest +:+ nl]. split; [|done].
    rewrite append_assoc. cbn [append]. by apply split_once.
Qed.

Lemma strip_lines ls :
  Forall clean_label ls → Str.strip <$> map (fun l => l +:+ nl) ls = ls.
Proof.
  induction 1 as [|l r [Hl _] Hr IH]; [done|].
  cbn [map fmap list_fmap]. unfold nl at 1. rewrite strip_line, Hl. f_equal. exact IH.
Qed.

(** C6, as the code has it.  For labels that [strip] leaves unchanged and
    that hold no line break, the mapping from 0, 1, 2, ... to the labels is
    read back unchanged from the file of "<int> <label>" lines, and from the
    file of bare labels too when its first label does not begin with a run
    of digits followed by a space. *)
Theorem labels_round_trip (ls : list string) :
  Forall clean_label ls →
  load_labels_text (write_labels_indexed 0 ls) = Ok (seq_map 0 ls) ∧
  (bare_readable ls → load_labels_text (write_labels_bare ls) = Ok (seq_map 0 ls)).
Proof.
  intros Hclean. split.
  - unfold load_labels_text. rewrite (readlines_write_indexed ls 0%N Hclean).
    destruct ls as [|l0 r]; [done|].
    unfold load_labels_lines.
    pose proof (indexed_entries_digits (l0 :: r) 0) as Hd.
    remember (indexed_entries 0 (l0 :: r)) as es eqn:Ees.
    destruct es as [|e0 es]; [done|].
    cbn [map]. inversion Hd as [|? ? H0 Hes]; subst.
    rewrite (split_entry_line e0 H0). cbn [item0].
    rewrite (ascii_digits_isdigit _ H0).
    change (entry_line e0 :: map entry_line es) with (map entry_line (e0 :: es)).
    rewrite map_map.
    rewrite (map_ext_Forall _ (fun e : string * string => [e.1; e.2])).
    + etransitivity; [exact (dict_of_pairs_entries (e0 :: es) ∅ Hd)|].
      f_equal. rewrite Ees, (indexed_entries_keyed _ _ Hclean).
      apply map_eq. intros k.
      rewrite foldl_put_keyed_lookup, seq_map_lookup, lookup_empty. done.
    + eapply Forall_impl; [exact Hes|]. intros e He. by apply split_entry_line.
  - intros Hbare. unfold load_labels_text.
    rewrite (readlines_write_bare ls Hclean).
    destruct ls as [|l0 r]; [done|].
    unfold load_labels_lines. cbn [map].
    destruct (first_token_bare l0 r Hbare) as (tok & t & Hs & Hd).
    rewrite Hs. cbn [item0]. rewrite Hd.
    f_equal. rewrite dict_of_enumerate_seq_map.
    f_equal. exact (strip_lines (l0 :: r) Hclean).
Qed.

(** ** The computations of main, step by step *)

Lemma bind_pair {A B} (t : list event) (r : result A) (f : A → M B) :
  (t, r) ≫= f =
    match r with
    | Ok a => (t ++ trace (f a), outcome (f a))
    | Raise e => (t, Raise e)
    end.
Proof.
  unfold mbind, M_bind. destruct r as [a|e]; [|done]. by destruct (f a).
Qed.

Lemma emit_bind {B} (e : event) (f : unit → M B) :
  emit e ≫= f = (e :: trace (f tt), outcome (f tt)).
Proof. unfold emit. by rewrite bind_pair. Qed.

Lemma lift_bind {A B} (r : result A) (f : A → M B) :
  lift r ≫= f = match r with Ok a => f a | Raise e => ([], Raise e) end.
Proof. unfold lift. rewrite bind_pair. destruct r; [|done]. by destruct (f a). Qed.

Lemma ret_bind {A B} (a : A) (f : A → M B) : mret a ≫= f = f a.
Proof. unfold mret, M_ret. rewrite bind_pair. by destruct (f a). Qed.

Lemma pair_eta {A} (m : M A) : (trace m, outcome m) = m.
Proof. by destruct m. Qed.

Lemma check_bind {B} (ok : bool) (f : unit → M B) :
  check ok ≫= f = if ok then f tt else ([], Raise RuntimeFailure).
Proof. unfold check. destruct ok; [apply ret_bind | done]. Qed.

Lemma call_eq (e : event) (ok : bool) :
  call e ok = ([e], if ok then Ok tt else Raise RuntimeFailure).
Proof. unfold call, check. rewrite emit_bind. by destruct ok. Qed.

Lemma call_bind {B} (e : event) (ok : bool) (f : unit → M B) :
  call e ok ≫= f =
    if ok then (e :: trace (f tt), outcome (f tt)) else ([e], Raise RuntimeFailure).
Proof. rewrite call_eq, bind_pair. by destruct ok. Qed.

Lemma inference_runs_ok w args interp img n st :
  invoke_ok w interp img = true →
  get_output_ok w interp img (arg_threshold args) = true →
  inference_runs w (arg_threshold args) interp img n st =
    (runs_trace n,
     Ok (after_runs (get_output w interp img (arg_threshold args)) n st)).
Proof.
  intros Hi Hg. revert st. induction n as [|k IH]; intros st; [done|].
  cbn [inference_runs]. rewrite call_bind, Hi, check_bind, Hg, emit_bind, IH.
  cbn. by destruct k.
Qed.

Lemma inference_runs_eq w args interp img n st :
  inference_runs w (arg_threshold args) interp img n st =
    match n with
    | O => ([], Ok st)
    | S _ =>
        if invoke_ok w interp img && get_output_ok w interp img (arg_threshold args)
        then (runs_trace n,
              Ok (after_runs (get_output w interp img (arg_threshold args)) n st))
        else ([Invoke], Raise RuntimeFailure)
    end.
Proof.
  destruct n as [|k]; [done|].
  destruct (invoke_ok w interp img) eqn:Hi;
    [destruct (get_output_ok w interp img (arg_threshold args)) eqn:Hg|].
  - by apply inference_runs_ok.
  - cbn [inference_runs andb]. by rewrite call_bind, Hi, check_bind, Hg.
  - cbn [inference_runs andb]. by rewrite call_bind, Hi.
Qed.

Lemma record_detection_eq labels img st obj :
  record_detection labels img st obj =
    (detection_trace labels obj, Ok (recorded img st obj)).
Proof. done. Qed.

Lemma for_each_record_eq labels img dets st :
  for_each (record_detection labels img) dets st =
    (flat_map (detection_trace labels) dets, Ok (record_all img dets st)).
Proof.
  revert st. induction dets as [|obj r IH]; intros st; [done|].
  cbn [for_each]. rewrite record_detection_eq, bind_pair, IH. done.
Qed.

Lemma draw_object_eq w labels obj :
  draw_object w labels obj =
    (until_failure (draw_ok w) (draw_trace labels [obj]),
     if forallb (draw_ok w) (draw_trace labels [obj]) then Ok tt
     else Raise RuntimeFailure).
Proof.
  unfold draw_object. rewrite call_bind, call_eq. cbn.
  destruct (draw_ok w (rectangle_of obj)); [|done]. cbn.
  by destruct (draw_ok w (text_of labels obj)).
Qed.

Lemma until_failure_app ok t1 t2 :
  until_failure ok (t1 ++ t2) =
    if forallb ok t1 then t1 ++ until_failure ok t2 else until_failure ok t1.
Proof.
  induction t1 as [|e r IH]; [done|]. cbn. destruct (ok e); [|done].
  cbn. rewrite IH. by destruct (forallb ok r).
Qed.

Lemma until_failure_all ok t : forallb ok t = true → until_failure ok t = t.
Proof.
  induction t as [|e r IH]; [done|]. cbn. destruct (ok e); [|done].
  cbn. intros H. by rewrite IH.
Qed.

Lemma until_failure_prefix ok t : until_failure ok t `prefix_of` t.
Proof.
  induction t as [|e r IH]; [done|]. cbn. destruct (ok e).
  - by apply prefix_cons.
  - apply prefix_cons, prefix_nil.
Qed.

Lemma draw_objects_eq w objs labels :
  draw_objects w objs labels =
    (until_failure (draw_ok w) (draw_trace labels objs),
     if forallb (draw_ok w) (draw_trace labels objs) then Ok tt
     else Raise RuntimeFailure).
Proof.
  unfold draw_objects. induction objs as [|obj r IH]; [done|].
  cbn [for_each]. rewrite draw_object_eq.
  change (draw_trace labels (obj :: r))
    with (draw_trace labels [obj] ++ draw_trace labels r).
  rewrite until_failure_app, List.forallb_app.
  destruct (forallb (draw_ok w) (draw_trace labels [obj])) eqn:Hd;
    rewrite bind_pair; [|done].
  rewrite IH, (until_failure_all _ _ Hd). cbn [trace outcome fst snd andb]. done.
Qed.

Lemma record_all_frame img dets st :
  objs (record_all img dets st) = objs st ∧ i (record_all img dets st) = i st.
Proof.
  revert st. induction dets as [|obj r IH]; intros st; [done|].
  unfold record_all in *. cbn [foldl]. by rewrite !(proj1 (IH _)), !(proj2 (IH _)).
Qed.

Lemma objs_after_runs decoded n st :
  objs (after_runs decoded n st) = objs_after decoded n st.
Proof. by destruct n. Qed.

Lemma i_after_runs decoded n st : i (after_runs decoded n st) = i st.
Proof. by destruct n. Qed.

(** What the three parts of the loop body do, case by case. *)

Lemma decode_image_eq w args interp st img :
  decode_image w args interp st img =
    let n := Z.to_nat (arg_count args) in
    let head := [ ImageOpen img; SetInput img;
                  Print [PStr "----INFERENCE TIME----"];
                  Print [PStr "Note: The first inference is slow because it includes";
                         PStr "loading the model into Edge TPU memory."] ] in
    if image_opens w img then
      if set_input_ok w interp img then
        match n with
        | O => (head, Ok st)
        | S _ =>
            if invoke_ok w interp img
               && get_output_ok w interp img (arg_threshold args)
            then (head ++ runs_trace n,
                  Ok (after_runs (get_output w interp img (arg_threshold args)) n st))
            else (head ++ [Invoke], Raise RuntimeFailure)
        end
      else ([ImageOpen img; SetInput img], Raise RuntimeFailure)
    else ([ImageOpen img], Raise RuntimeFailure).
Proof.
  unfold decode_image. cbn zeta. rewrite call_bind.
  destruct (image_opens w img); [|done].
  rewrite call_bind. destruct (set_input_ok w interp img); [|done].
  rewrite !emit_bind, inference_runs_eq.
  destruct (Z.to_nat (arg_count args)) as [|k]; [done|].
  by destruct (invoke_ok w interp img && get_output_ok w interp img (arg_threshold args)).
Qed.

Lemma report_detections_eq labels img st :
  report_detections labels img st =
    match objs st with
    | Some o =>
        (Print [PStr "-------RESULTS--------"]
           :: (match o with [] => [no_objects_line] | _ => [] end)
           ++ flat_map (detection_trace labels) o ++ [Print [PInt (i st)]],
         Ok (record_all img o st))
    | None => ([Print [PStr "-------RESULTS--------"]], Raise UnboundLocalError)
    end.
Proof.
  unfold report_detections, read_objs.
  destruct (objs st) as [o|]; [|done].
  assert (Hi : i (record_all img o st) = i st) by apply record_all_frame.
  unfold mbind, M_bind, emit, mret, M_ret. cbn beta iota.
  rewrite for_each_record_eq, Hi. destruct o; cbn; by rewrite ?app_nil_r.
Qed.

Lemma annotate_image_eq w args labels img st :
  annotate_image w args labels img st =
    if truthy (arg_output args) then
      if convert_ok w img then
        match objs st with
        | Some o =>
            if forallb (draw_ok w) (draw_trace labels o) then
              if save_ok w img (default "" (arg_output args)) then
                (output_trace args labels o,
                 if show_ok w img then Ok tt else Raise RuntimeFailure)
              else (draw_trace labels o ++ [ImageSave (default "" (arg_output args))],
                    Raise RuntimeFailure)
            else (until_failure (draw_ok w) (draw_trace labels o), Raise RuntimeFailure)
        | None => ([], Raise UnboundLocalError)
        end
      else ([], Raise RuntimeFailure)
    else ([], Ok tt).
Proof.
  unfold annotate_image, output_trace, read_objs.
  destruct (truthy (arg_output args)); [|done].
  rewrite check_bind. destruct (convert_ok w img); [|done].
  destruct (objs st) as [o|]; [|done].
  rewrite ret_bind, draw_objects_eq.
  destruct (forallb (draw_ok w) (draw_trace labels o)) eqn:Hd; rewrite bind_pair; [|done].
  rewrite (until_failure_all _ _ Hd), call_bind.
  destruct (save_ok w img (default "" (arg_output args))); [|done].
  rewrite call_eq. done.
Qed.

Lemma process_image_seq w args labels interp st img :
  process_image w args labels interp st img =
    match decode_image w args interp st img with
    | (t1, Ok st1) =>
        match report_detections labels img st1 with
        | (t2, Ok st2) =>
            match annotate_image w args labels img st2 with
            | (t3, Ok _) => (t1 ++ t2 ++ t3, Ok (incr_i st2))
            | (t3, Raise e) => (t1 ++ t2 ++ t3, Raise e)
            end
        | (t2, Raise e) => (t1 ++ t2, Raise e)
        end
    | (t1, Raise e) => (t1, Raise e)
    end.
Proof.
  unfold process_image.
  destruct (decode_image w args interp st img) as [t1 [st1|e]]; rewrite bind_pair; [|done].
  cbn beta.
  destruct (report_detections labels img st1) as [t2 [st2|e]]; rewrite bind_pair; [|done].
  cbn beta.
  destruct (annotate_image w args labels img st2) as [t3 [u|e]]; rewrite bind_pair; cbn.
  - by rewrite app_nil_r.
  - done.
Qed.

(** A pass that returns: what it printed, what it left, and the calls that
    must have returned. *)
Lemma process_image_complete w args labels interp st img t st' :
  process_image w args labels interp st img = (t, Ok st') →
  ∃ o,
    objs_after (get_output w interp img (arg_threshold args))
      (Z.to_nat (arg_count args)) st = Some o ∧
    t = image_trace args labels img (Z.to_nat (arg_count args)) (i st) o ∧
    st' = incr_i (record_all img o
            (after_runs (get_output w interp img (arg_threshold args))
               (Z.to_nat (arg_count args)) st)) ∧
    image_opens w img = true ∧
    set_input_ok w interp img = true ∧
    (0 < arg_count args →
     invoke_ok w interp img = true ∧
     get_output_ok w interp img (arg_threshold args) = true) ∧
    (truthy (arg_output args) = true →
     convert_ok w img = true ∧
     forallb (draw_ok w) (draw_trace labels o) = true ∧
     save_ok w img (default "" (arg_output args)) = true ∧
     show_ok w img = true).
Proof.
  rewrite process_image_seq, decode_image_eq. cbn zeta.
  set (n := Z.to_nat (arg_count args)).
  set (dets := get_output w interp img (arg_threshold args)).
  destruct (image_opens w img); [|done].
  destruct (set_input_ok w interp img); [|done].
  assert (Hdec : ∀ t1,
    match report_detections labels img (after_runs dets n st) with
    | (t2, Ok st2) =>
        match annotate_image w args labels img st2 with
        | (t3, Ok _) => (t1 ++ t2 ++ t3, Ok (incr_i st2))
        | (t3, Raise e) => (t1 ++ t2 ++ t3, Raise e)
        end
    | (t2, Raise e) => (t1 ++ t2, Raise e)
    end = (t, Ok st') →
    ∃ o, objs_after dets n st = Some o ∧
         t = t1 ++ (Print [PStr "-------RESULTS--------"]
               :: (match o with [] => [no_objects_line] | _ => [] end)
               ++ flat_map (detection_trace labels) o ++ [Print [PInt (i st)]])
               ++ output_trace args labels o ∧
         st' = incr_i (record_all img o (after_runs dets n st)) ∧
         (truthy (arg_output args) = true →
          convert_ok w img = true ∧
          forallb (draw_ok w) (draw_trace labels o) = true ∧
          save_ok w img (default "" (arg_output args)) = true ∧
          show_ok w img = true)).
  { intros t1. rewrite report_detections_eq, objs_after_runs, i_after_runs.
    destruct (objs_after dets n st) as [o|] eqn:Eo; [|done].
    rewrite annotate_image_eq, (proj1 (record_all_frame _ _ _)), objs_after_runs, Eo.
    unfold output_trace.
    destruct (truthy (arg_output args)).
    - destruct (convert_ok w img); [|done].
      destruct (forallb (draw_ok w) (draw_trace labels o)) eqn:Hd; [|done].
      destruct (save_ok w img (default "" (arg_output args))); [|done].
      destruct (show_ok w img); [|done].
      intros [= <- <-]. exists o. split; [done|]. split; [reflexivity|]. done.
    - intros [= <- <-]. exists o. split; [done|]. split; [|done].
      by rewrite !app_nil_r. }
  destruct n as [|k] eqn:En.
  - intros H. apply Hdec in H as (o & Ho & -> & -> & Hout).
    exists o. split; [done|]. split.
    { unfold image_trace, image_header. cbn. by rewrite <- ?app_assoc. }
    split; [done|]. split; [done|]. split; [done|]. split; [|done].
    unfold n in En. lia.
  - destruct (invoke_ok w interp img); [|done].
    destruct (get_output_ok w interp img (arg_threshold args)); [|done].
    cbn [andb]. intros H. apply Hdec in H as (o & Ho & -> & -> & Hout).
    exists o. split; [done|]. split.
    { unfold image_trace, image_header. cbn. by rewrite <- ?app_assoc. }
    done.
Qed.

Lemma annotate_image_prefix w args labels img st o :
  objs st = Some o →
  trace (annotate_image w args labels img st) `prefix_of` output_trace args labels o.
Proof.
  intros Ho. rewrite annotate_image_eq, Ho. unfold output_trace.
  destruct (truthy (arg_output args)); [|done].
  destruct (convert_ok w img); [|apply prefix_nil].
  destruct (forallb (draw_ok w) (draw_trace labels o)).
  - destruct (save_ok w img (default "" (arg_output args))); [done|].
    apply prefix_app. apply prefix_cons, prefix_nil.
  - apply prefix_app_r, until_failure_prefix.
Qed.

(** However a pass ends, what it did is the beginning of what a pass that
    returns does, and it starts by opening the image. *)
Lemma process_image_any w args labels interp st img :
  ∃ o rest,
    trace (process_image w args labels interp st img) = ImageOpen img :: rest ∧
    trace (process_image w args labels interp st img)
      `prefix_of` image_trace args labels img (Z.to_nat (arg_count args)) (i st) o.
Proof.
  set (n := Z.to_nat (arg_count args)).
  set (dets := get_output w interp img (arg_threshold args)).
  assert (Hfull : ∀ o, image_trace args labels img n (i st) o =
            [ ImageOpen img; SetInput img;
              Print [PStr "----INFERENCE TIME----"];
              Print [PStr "Note: The first inference is slow because it includes";
                     PStr "loading the model into Edge TPU memory."] ]
            ++ runs_trace n
            ++ (Print [PStr "-------RESULTS--------"]
                  :: (match o with [] => [no_objects_line] | _ => [] end)
                  ++ flat_map (detection_trace labels) o ++ [Print [PInt (i st)]])
            ++ output_trace args labels o).
  { intros o. unfold image_trace, image_header. cbn. by rewrite <- ?app_assoc. }
  assert (Htail : ∀ t1 : list event,
    ∃ o, fst (match report_detections labels img (after_runs dets n st) with
              | (t2, Ok st2) =>
                  match annotate_image w args labels img st2 with
                  | (t3, Ok _) => (t1 ++ t2 ++ t3, Ok (incr_i st2))
                  | (t3, Raise e) => (t1 ++ t2 ++ t3, Raise e)
                  end
              | (t2, Raise e) => (t1 ++ t2, Raise e)
              end)
         `prefix_of`
         t1 ++ (Print [PStr "-------RESULTS--------"]
                  :: (match o with [] => [no_objects_line] | _ => [] end)
                  ++ flat_map (detection_trace labels) o ++ [Print [PInt (i st)]])
            ++ output_trace args labels o).
  { intros t1. rewrite report_detections_eq, objs_after_runs, i_after_runs.
    destruct (objs_after dets n st) as [o|] eqn:Eo.
    - exists o.
      pose proof (annotate_image_prefix w args labels img
                    (record_all img o (after_runs dets n st)) o) as Hp.
      rewrite (proj1 (record_all_frame _ _ _)), objs_after_runs in Hp.
      specialize (Hp Eo).
      set (t2 := Print [PStr "-------RESULTS--------"] :: _).
      destruct (annotate_image w args labels img _) as [t3 [u|e]];
        cbn [fst trace] in *; apply prefix_app, prefix_app, Hp.
    - exists []. cbn [fst]. apply prefix_app. cbn [app]. by eexists. }
  rewrite process_image_seq, decode_image_eq. cbn zeta. fold n. fold dets.
  destruct (image_opens w img).
  2:{ exists [], []. split; [done|]. rewrite Hfull. apply prefix_cons, prefix_nil. }
  destruct (set_input_ok w interp img).
  2:{ exists [], [SetInput img]. split; [done|]. rewrite Hfull.
      do 2 apply prefix_cons. apply prefix_nil. }
  destruct n as [|k] eqn:En.
  - destruct (Htail [ ImageOpen img; SetInput img;
              Print [PStr "----INFERENCE TIME----"];
              Print [PStr "Note: The first inference is slow because it includes";
                     PStr "loading the model into Edge TPU memory."] ]) as [o Hp].
    exists o. rewrite Hfull. cbn [runs_trace app] in *.
    change (after_runs dets 0 st) with st in Hp.
    destruct (report_detections labels img st) as [t2 [st2|e]];
      [destruct (annotate_image w args labels img st2) as [t3 [u|e]]|];
      cbn [fst trace] in *; (eexists; split; [reflexivity | exact Hp]).
  - destruct (invoke_ok w interp img && get_output_ok w interp img (arg_threshold args)).
    + destruct (Htail ([ ImageOpen img; SetInput img;
              Print [PStr "----INFERENCE TIME----"];
              Print [PStr "Note: The first inference is slow because it includes";
                     PStr "loading the model into Edge TPU memory."] ]
              ++ runs_trace (S k))) as [o Hp].
      exists o. rewrite Hfull.
      destruct (report_detections labels img (after_runs dets (S k) st)) as [t2 [st2|e]];
        [destruct (annotate_image w args labels img st2) as [t3 [u|e]]|];
        cbn [fst trace] in *;
        (eexists; split; [reflexivity | by rewrite <- app_assoc in Hp]).
    + exists [], [SetInput img;
              Print [PStr "----INFERENCE TIME----"];
              Print [PStr "Note: The first inference is slow because it includes";
                     PStr "loading the model into Edge TPU memory."]; Invoke].
      split; [done|]. rewrite Hfull. cbn. do 5 apply prefix_cons. apply prefix_nil.
Qed.

(** ** Rows recorded by the loops *)

Lemma extend_nil st : extend st [] st.
Proof. unfold extend. cbn. by rewrite !app_nil_r. Qed.

Lemma extend_trans st D1 st1 D2 st2 :
  extend st D1 st1 → extend st1 D2 st2 → extend st (D1 ++ D2) st2.
Proof.
  unfold extend. intros (a1 & a2 & a3 & a4 & a5 & a6 & a7) (b1 & b2 & b3 & b4 & b5 & b6 & b7).
  rewrite b1, b2, b3, b4, b5, b6, b7, a1, a2, a3, a4, a5, a6, a7.
  rewrite !map_app, !app_assoc. done.
Qed.

Lemma extend_recorded img st obj : extend st [(img, obj)] (recorded img st obj).
Proof. by unfold extend. Qed.

Lemma record_all_extend img dets st :
  extend st (map (pair img) dets) (record_all img dets st).
Proof.
  revert st. induction dets as [|obj r IH]; intros st; [apply extend_nil|].
  change (map (pair img) (obj :: r)) with ([(img, obj)] ++ map (pair img) r).
  eapply extend_trans; [apply extend_recorded | apply IH].
Qed.

Lemma extend_aligned st D st' : aligned st → extend st D st' → aligned st'.
Proof.
  unfold aligned, extend. intros H (-> & _ & -> & _).
  rewrite !length_app, !length_map. lia.
Qed.

Lemma opened_images_app t1 t2 :
  opened_images (t1 ++ t2) = opened_images t1 ++ opened_images t2.
Proof.
  induction t1 as [|e r IH]; [done|]. destruct e; cbn; rewrite ?IH; done.
Qed.

Lemma opened_images_runs n : opened_images (runs_trace n) = [].
Proof. induction n as [|k IH]; [done|]. exact IH. Qed.

Lemma opened_images_detections labels o :
  opened_images (flat_map (detection_trace labels) o) = [].
Proof. induction o as [|obj r IH]; [done|]. exact IH. Qed.

Lemma opened_images_output args labels o :
  opened_images (output_trace args labels o) = [].
Proof.
  unfold output_trace. destruct (truthy _); [|done].
  rewrite opened_images_app. cbn. rewrite app_nil_r.
  unfold draw_trace. induction o as [|obj r IH]; [done|]. exact IH.
Qed.

Lemma opened_images_header img n : opened_images (image_header img n) = [img].
Proof.
  unfold image_header. cbn. by rewrite opened_images_app, opened_images_runs.
Qed.

Lemma opened_images_image args labels img n i0 o :
  opened_images (image_trace args labels img n i0 o) = [img].
Proof.
  unfold image_trace.
  rewrite !opened_images_app, opened_images_header, opened_images_detections,
    opened_images_output.
  by destruct o.
Qed.

Lemma opened_images_pass w args labels interp st img :
  opened_images (trace (process_image w args labels interp st img)) = [img].
Proof.
  destruct (process_image_any w args labels interp st img) as (o & rest & Ht & [k Hk]).
  apply (f_equal opened_images) in Hk.
  rewrite opened_images_image, opened_images_app, Ht in Hk. rewrite Ht.
  cbn in *. injection Hk as Hk. symmetry in Hk.
  apply app_eq_nil in Hk as [-> _]. done.
Qed.

Lemma forallb_prefix (p : event → bool) t1 t2 :
  t1 `prefix_of` t2 → forallb p t2 = true → forallb p t1 = true.
Proof.
  intros [k ->]. rewrite List.forallb_app, andb_true_iff. tauto.
Qed.

Lemma image_loop_cons w args labels interp img r st :
  image_loop w args labels interp (img :: r) st =
    process_image w args labels interp st img ≫= image_loop w args labels interp r.
Proof. done. Qed.

(** A pass of the loop over [imgs] that returns. *)
Lemma image_loop_complete w args labels interp imgs st t st' :
  image_loop w args labels interp imgs st = (t, Ok st') →
  objs st = None ∨ (0 < Z.to_nat (arg_count args))%nat →
  extend st (detections_of w args interp imgs) st' ∧
  opened_images t = imgs ∧
  (∀ img, img ∈ imgs →
          get_output w interp img (arg_threshold args) = [] →
          no_objects_line ∈ t) ∧
  (imgs ≠ [] →
   0 < arg_count args ∧ Forall (pass_calls_ok w args labels interp) imgs) ∧
  t = loop_trace w args labels interp (Z.to_nat (arg_count args)) (i st) imgs ∧
  i st' = i st + Z.of_nat (length imgs).
Proof.
  revert st t. induction imgs as [|img r IH]; intros st t Hrun Hinv.
  - injection Hrun as <- <-. split; [apply extend_nil|]. split; [done|].
    split; [|split; [done|]].
    + intros img Hin. by apply elem_of_nil in Hin.
    + split; [done|]. cbn. lia.
  - rewrite image_loop_cons in Hrun.
    destruct (process_image w args labels interp st img) as [t0 [st0|e]] eqn:Hpass;
      rewrite bind_pair in Hrun; [|done].
    destruct (image_loop w args labels interp r st0) as [t1 [st1|e]] eqn:Hrest; [|done].
    cbn [trace outcome fst snd] in Hrun. injection Hrun as <- <-.
    apply process_image_complete in Hpass
      as (o & Ho & -> & -> & Hopen & Hset & Hrunok & Hout).
    set (n := Z.to_nat (arg_count args)) in *.
    set (dets := get_output w interp img (arg_threshold args)) in *.
    assert (Hn : (0 < n)%nat).
    { destruct n; [|lia]. destruct Hinv as [Hnone|]; [|lia].
      cbn in Ho. by rewrite Hnone in Ho. }
    assert (Hcount : 0 < arg_count args) by (unfold n in Hn; lia).
    assert (Hod : o = dets).
    { destruct n; [lia|]. cbn in Ho. by injection Ho as <-. }
    subst o. destruct (Hrunok Hcount) as [Hinv' Hget].
    destruct (IH _ _ Hrest) as (Hext & Hop & Hline & Hall & Htr & Hi); [right; lia|].
    clear Hcount. destruct n as [|k] eqn:En; [lia|].
    split; [|split; [|split; [|split; [|split]]]].
    + change (detections_of w args interp (img :: r))
        with (map (pair img) dets ++ detections_of w args interp r).
      eapply extend_trans; [|exact Hext].
      exact (record_all_extend img dets (after_runs dets (S k) st)).
    + by rewrite opened_images_app, opened_images_image, Hop.
    + intros img' Hin Hdet. apply elem_of_app.
      apply elem_of_cons in Hin as [->|Hin].
      * left. unfold image_trace. fold dets in Hdet. rewrite Hdet.
        apply elem_of_app. right. apply elem_of_app. left. by apply list_elem_of_singleton.
      * right. by apply (Hline img').
    + intros _. split; [unfold n in En; lia|]. constructor; [done|].
      destruct r as [|img2 r2]; [constructor|]. by apply Hall.
    + rewrite Htr. cbn [loop_trace incr_i i]. fold dets.
      by rewrite (proj2 (record_all_frame _ _ _)).
    + rewrite Hi. cbn [incr_i i length].
      rewrite (proj2 (record_all_frame _ _ _)). cbn. lia.
Qed.

(** Whatever way the loop ends, it opens a prefix of the images it was
    given, in order, and causes only events a pass can cause. *)
Lemma image_loop_any (p : event → bool) w args labels interp imgs st :
  (∀ img i0 o,
     forallb p (image_trace args labels img (Z.to_nat (arg_count args)) i0 o) = true) →
  opened_images (trace (image_loop w args labels interp imgs st)) `prefix_of` imgs ∧
  forallb p (trace (image_loop w args labels interp imgs st)) = true.
Proof.
  intros Hp. revert st. induction imgs as [|img r IH]; intros st; [done|].
  rewrite image_loop_cons.
  pose proof (opened_images_pass w args labels interp st img) as Hopen.
  destruct (process_image_any w args labels interp st img) as (o & rest & _ & Hpre).
  apply (forallb_prefix p) in Hpre; [|apply Hp].
  destruct (process_image w args labels interp st img) as [t0 [st0|e]];
    rewrite bind_pair; cbn [trace outcome fst snd] in *.
  - destruct (IH st0) as [Hop Hev].
    rewrite opened_images_app, Hopen, List.forallb_app, Hpre, Hev.
    split; [by apply prefix_cons | done].
  - rewrite Hopen. split; [apply prefix_cons, prefix_nil | done].
Qed.

Lemma loop_event_runs n : forallb loop_event (runs_trace n) = true.
Proof. induction n as [|k IH]; [done|]. exact IH. Qed.

Lemma loop_event_detections labels o :
  forallb loop_event (flat_map (detection_trace labels) o) = true.
Proof. induction o as [|obj r IH]; [done|]. exact IH. Qed.

Lemma loop_event_output args labels o :
  forallb loop_event (output_trace args labels o) = true.
Proof.
  unfold output_trace. destruct (truthy _); [|done].
  rewrite List.forallb_app, andb_true_r.
  unfold draw_trace. induction o as [|obj r IH]; [done|]. exact IH.
Qed.

Lemma loop_event_header img n : forallb loop_event (image_header img n) = true.
Proof.
  unfold image_header. cbn. by rewrite List.forallb_app, loop_event_runs.
Qed.

Lemma loop_event_image args labels img n i0 o :
  forallb loop_event (image_trace args labels img n i0 o) = true.
Proof.
  unfold image_trace.
  rewrite !List.forallb_app, loop_event_header, loop_event_detections,
    loop_event_output.
  by destruct o.
Qed.

Lemma setup_cases w args :
  (∃ e t, setup w args = (t, Raise e) ∧ (t = [] ∨ t = [AllocateTensors])) ∨
  (∃ labels interp, setup w args = ([AllocateTensors], Ok (labels, interp))).
Proof.
  unfold setup. rewrite lift_bind.
  destruct (if truthy (arg_labels args) then _ else _) as [labels|e]; [|by eauto 6].
  rewrite lift_bind.
  destruct (make_interpreter _ _) as [interp|e]; [|by eauto 6].
  rewrite call_bind. destruct (allocate_tensors_ok w interp).
  - right. by exists labels, interp.
  - left. by eauto 6.
Qed.

Lemma main_images_eq w args :
  main_images w args =
    match setup w args with
    | (t0, Ok (labels, interp)) =>
        match glob w images_pattern !! 253%nat with
        | Some name =>
            let run := image_loop w args labels interp
                         (glob w images_pattern) init_locals in
            (t0 ++ Print [PStr name] :: trace run, outcome run)
        | None => (t0, Raise IndexError)
        end
    | (t0, Raise e) => (t0, Raise e)
    end.
Proof.
  unfold main_images. destruct (setup w args) as [t0 [[labels interp]|e]].
  - rewrite bind_pair. rewrite lift_bind.
    destruct (glob w images_pattern !! 253%nat) as [name|].
    + rewrite emit_bind. cbn [trace outcome fst snd]. done.
    + cbn. by rewrite app_nil_r.
  - by rewrite bind_pair.
Qed.

Lemma main_images_complete w args t st :
  main_images w args = (t, Ok st) →
  ∃ labels interp name t1,
    setup w args = ([AllocateTensors], Ok (labels, interp)) ∧
    glob w images_pattern !! 253%nat = Some name ∧
    image_loop w args labels interp (glob w images_pattern) init_locals = (t1, Ok st) ∧
    t = AllocateTensors :: Print [PStr name] :: t1.
Proof.
  rewrite main_images_eq.
  destruct (setup_cases w args) as [(e & t0 & -> & _)|(labels & interp & ->)]; [done|].
  destruct (glob w images_pattern !! 253%nat) as [name|]; [|done].
  cbn zeta. intros [= <- Hout].
  exists labels, interp, name,
    (trace (image_loop w args labels interp (glob w images_pattern) init_locals)).
  split; [done|]. split; [done|]. split; [|done].
  rewrite <- Hout. symmetry. apply pair_eta.
Qed.

Lemma main_images_aligned w args t st :
  main_images w args = (t, Ok st) → aligned st.
Proof.
  intros H. apply main_images_complete in H as (labels & interp & name & t1 & _ & _ & H & _).
  apply image_loop_complete in H as (Hext & _); [|by left].
  exact (extend_aligned init_locals _ st eq_refl Hext).
Qed.

(** ** The table loop *)

Lemma for_each_app {A S} (body : S → A → M S) l1 l2 s :
  for_each body (l1 ++ l2) s = for_each body l1 s ≫= for_each body l2.
Proof.
  revert s. induction l1 as [|x r IH]; intros s; cbn [for_each app].
  - by rewrite ret_bind.
  - destruct (body s x) as [t [s'|e]].
    + rewrite !bind_pair, IH.
      destruct (for_each body r s') as [t1 [s1|e1]]; rewrite !bind_pair; cbn.
      * by rewrite app_assoc.
      * done.
    + by rewrite !bind_pair.
Qed.

Lemma table_after_S st k :
  table_after st (S k) = table_after st k ≫= (fun tbl => table_step st tbl k).
Proof.
  unfold table_after. rewrite seq_S, for_each_app.
  destruct (for_each (table_step st) (seq 0 k) ∅) as [t [tbl|e]];
    rewrite !bind_pair; [|done].
  cbn [for_each]. destruct (table_step st tbl (0 + k)) as [t1 [tbl1|e1]] eqn:E;
    rewrite bind_pair; cbn in *; rewrite E; cbn; by rewrite ?app_nil_r.
Qed.

Lemma img_dict_overwrites a b st :
  dict_update (img_dict_for b st) (img_dict_for a st) = img_dict_for a st.
Proof.
  apply map_eq. intros key. unfold dict_update. rewrite lookup_union.
  unfold img_dict_for. rewrite !lookup_insert, !lookup_empty.
  repeat case_decide; done.
Qed.

Lemma table_after_row st k name :
  img_n st !! k = Some name →
  table_after st (S k) = ([], Ok (img_dict_for name st)).
Proof.
  revert name. induction k as [|k IH]; intros name H; rewrite table_after_S.
  - unfold table_after. cbn [seq for_each]. rewrite ret_bind.
    unfold table_step, img_dict. rewrite H, lift_bind.
    unfold dict_update. by rewrite (right_id_L ∅ (∪)).
  - destruct (lookup_lt_is_Some_2 (img_n st) k) as [name' H'].
    { apply lookup_lt_Some in H. lia. }
    rewrite (IH name' H'), bind_pair.
    unfold table_step, img_dict. rewrite H, lift_bind.
    cbn. by rewrite img_dict_overwrites.
Qed.

Lemma build_table_ok st : aligned st → ∃ tbl, build_table st = ([], Ok tbl).
Proof.
  unfold aligned, build_table. intros H.
  destruct (length (img_x st)) as [|k] eqn:E; [by exists ∅|].
  destruct (lookup_lt_is_Some_2 (img_n st) k) as [name Hn]; [lia|].
  exists (img_dict_for name st). by apply table_after_row.
Qed.

(** C2.  After the per-image loop the table loop makes one pass per index
    of the accumulated lists; the pass at index [k] leaves in [img_csv]
    exactly the seven entries of the dict literal built there, the single
    file name [img_n[k]] beside the whole lists, whatever earlier passes had
    put there. *)
Theorem table_rebuilt_per_index w args t st :
  main_images w args = (t, Ok st) →
  build_table st = for_each (table_step st) (seq 0 (length (img_x st))) ∅ ∧
  ∀ k, (k < length (img_x st))%nat →
       ∃ name, img_n st !! k = Some name ∧
               table_after st (S k) = ([], Ok (img_dict_for name st)) ∧
               img_dict_for name st !! "image_filename" = Some (CName name) ∧
               img_dict_for name st !! "label_id" = Some (CInts (img_id st)) ∧
               img_dict_for name st !! "x" = Some (CInts (img_x st)) ∧
               img_dict_for name st !! "y" = Some (CInts (img_y st)) ∧
               img_dict_for name st !! "w" = Some (CInts (img_w st)) ∧
               img_dict_for name st !! "h" = Some (CInts (img_h st)) ∧
               img_dict_for name st !! "confidence" = Some (CScores (img_score st)) ∧
               size (img_dict_for name st) = 7%nat.
Proof.
  intros Hrun. split; [done|]. intros k Hk.
  pose proof (main_images_aligned w args t st Hrun) as Hal. unfold aligned in Hal.
  destruct (lookup_lt_is_Some_2 (img_n st) k) as [name Hn]; [lia|].
  exists name. split; [done|]. split; [by apply table_after_row|].
  repeat split; done.
Qed.


Lemma table_rebuilt_per_index_witness :
  outcome (main_images (world_of many_images detect_on_first_two) default_args)
    = Ok first_two_rows ∧
  table_after first_two_rows 1 = ([], Ok (img_dict_for (image_name 0) first_two_rows)) ∧
  table_after first_two_rows 3 = ([], Ok (img_dict_for (image_name 1) first_two_rows)) ∧
  img_dict_for (image_name 1) first_two_rows !! "w" = Some (CInts [100; 40; 40]).
Proof.
  assert (Hout : outcome (main_images (world_of many_images detect_on_first_two)
                            default_args) = Ok first_two_rows).
  { vm_compute. reflexivity. }
  split; [exact Hout|].
  assert (Hrun : main_images (world_of many_images detect_on_first_two) default_args
                 = (trace (main_images (world_of many_images detect_on_first_two)
                             default_args), Ok first_two_rows)).
  { rewrite <- Hout. symmetry. apply pair_eta. }
  destruct (table_rebuilt_per_index _ _ _ _ Hrun) as [_ Hk].
  split; [|split].
  - destruct (Hk 0%nat) as (name & Hn & Ht & _); [cbn; lia|].
    injection Hn as <-. exact Ht.
  - destruct (Hk 2%nat) as (name & Hn & Ht & _); [cbn; lia|].
    injection Hn as <-. exact Ht.
  - destruct (Hk 2%nat) as (name & Hn & _ & _ & _ & _ & _ & Hw & _); [cbn; lia|].
    injection Hn as <-. exact Hw.
Defined.

(** ** The end of main *)

Lemma main_eq w args :
  main w args =
    match main_images w args with
    | (t, Ok st) =>
        match build_table st with
        | (t1, Ok _) => (t ++ t1, Raise AttributeError)
        | (t1, Raise e) => (t ++ t1, Raise e)
        end
    | (t, Raise e) => (t, Raise e)
    end.
Proof.
  unfold main. destruct (main_images w args) as [t [st|e]]; rewrite bind_pair; [|done].
  destruct (build_table st) as [t1 [tbl|e]]; rewrite bind_pair; cbn; [|done].
  by rewrite app_nil_r.
Qed.

Lemma main_images_events w args :
  opened_images (trace (main_images w args)) `prefix_of` glob w images_pattern ∧
  (∀ name arg, CallMethod name arg ∉ trace (main_images w args)).
Proof.
  rewrite main_images_eq.
  assert (Hno : ∀ t name arg, forallb loop_event t = true → CallMethod name arg ∉ t).
  { intros t name arg Ht Hin. apply list_elem_of_In in Hin.
    by apply (proj1 (forallb_forall _ _) Ht) in Hin. }
  destruct (setup_cases w args) as [(e & t0 & -> & Ht0)|(labels & interp & ->)].
  - destruct Ht0 as [-> | ->].
    + split; [apply prefix_nil|]. intros name arg Hin. by apply elem_of_nil in Hin.
    + split; [apply prefix_nil|]. intros name arg Hin.
      apply list_elem_of_singleton in Hin. discriminate Hin.
  - destruct (glob w images_pattern !! 253%nat) as [name253|].
    + destruct (image_loop_any loop_event w args labels interp
                  (glob w images_pattern) init_locals
                  (fun img => loop_event_image args labels img _))
        as [Hp He].
      split; [exact Hp|]. intros name arg Hin. cbn in Hin.
      apply elem_of_cons in Hin as [?|Hin]; [done|].
      apply elem_of_cons in Hin as [?|Hin]; [done|].
      by apply (Hno _ name arg He).
    + split; [apply prefix_nil|]. intros name arg Hin. cbn in Hin.
      apply elem_of_cons in Hin as [?|Hin]; [done|]. by apply elem_of_nil in Hin.
Qed.

Lemma main_trace w args : trace (main w args) = trace (main_images w args).
Proof.
  rewrite main_eq. destruct (main_images w args) as [t [st|e]] eqn:E; [|done].
  destruct (build_table_ok st (main_images_aligned _ _ _ _ E)) as [tbl ->].
  cbn. by rewrite app_nil_r.
Qed.

Lemma export_images_never_ok w args u : outcome (main w args) ≠ Ok u.
Proof.
  rewrite main_eq.
  destruct (main_images w args) as [t [st|e]]; [|done].
  by destruct (build_table st) as [t1 [tbl|e]].
Qed.

(** C10.  A run that completes the per-image loop ends in [AttributeError]
    at the export statement, [img_csv] being a dict; no run returns
    normally and none ever calls a method that would write the table. *)
Theorem export_raises w args :
  (∀ t st, main_images w args = (t, Ok st) →
           main w args = (t, Raise AttributeError)) ∧
  (∀ u, outcome (main w args) ≠ Ok u) ∧
  (∀ name arg, CallMethod name arg ∉ trace (main w args)).
Proof.
  split; [|split].
  - intros t st H. rewrite main_eq, H.
    destruct (build_table_ok st (main_images_aligned _ _ _ _ H)) as [tbl ->].
    by rewrite app_nil_r.
  - intros u. apply export_images_never_ok.
  - rewrite main_trace. apply main_images_events.
Qed.

Lemma export_raises_witness :
  outcome (main_images (world_of many_images (fun _ => [])) default_args) = Ok no_rows ∧
  outcome (main (world_of many_images (fun _ => [])) default_args)
    = Raise AttributeError.
Proof.
  assert (Hout : outcome (main_images (world_of many_images (fun _ => []))
                            default_args) = Ok no_rows).
  { vm_compute. reflexivity. }
  split; [exact Hout|].
  assert (Hrun : main_images (world_of many_images (fun _ => [])) default_args
                 = (trace (main_images (world_of many_images (fun _ => []))
                             default_args), Ok no_rows)).
  { rewrite <- Hout. symmetry. apply pair_eta. }
  by rewrite (proj1 (export_raises _ _) _ _ Hrun).
Defined.


(** ** Fewer than 254 images *)

(** C9, as the code has it.  When the pattern matches fewer than 254 files,
    a run in which lines 91-93 succeed (the labels are loaded, the
    interpreter is constructed and its tensors are allocated) ends in
    [IndexError] at [print(img_name[253])] with nothing done since; and in
    every such run, however it ends, no image is opened, no input set and no
    inference invoked, and the run does not return normally. *)
Theorem short_glob_raises w args :
  (length (glob w images_pattern) < 254)%nat →
  (∀ t0 v, setup w args = (t0, Ok v) → main w args = (t0, Raise IndexError)) ∧
  (∀ e, e ∈ trace (main w args) → is_inference e = false) ∧
  (∀ u, outcome (main w args) ≠ Ok u).
Proof.
  intros Hlen.
  assert (Hnone : glob w images_pattern !! 253%nat = None).
  { apply lookup_ge_None. lia. }
  split; [|split].
  - intros t0 [labels interp] Hs. rewrite main_eq, main_images_eq, Hs, Hnone. done.
  - rewrite main_trace, main_images_eq, Hnone.
    destruct (setup_cases w args) as [(e & t0 & -> & [-> | ->])|(labels & interp & ->)];
      intros ev Hin.
    + by apply elem_of_nil in Hin.
    + apply list_elem_of_singleton in Hin as ->. done.
    + apply list_elem_of_singleton in Hin as ->. done.
  - apply export_images_never_ok.
Qed.

Lemma short_glob_raises_witness :
  (length (glob (world_of one_image (fun _ => [])) images_pattern) < 254)%nat ∧
  main (world_of one_image (fun _ => [])) default_args
    = ([AllocateTensors], Raise IndexError).
Proof.
  assert (H : (length (glob (world_of one_image (fun _ => [])) images_pattern) < 254)%nat).
  { cbn. lia. }
  split; [exact H|].
  exact (proj1 (short_glob_raises _ default_args H) [AllocateTensors]
           (∅, {| model_path := "model.tflite" |}) eq_refl).
Defined.

(** C9 as worded fails: with no image at all and a labels file that does
    not exist, the run ends in [FileNotFoundError] at line 91, not in
    [IndexError]. *)
Lemma short_glob_counterexample :
  (length (glob (world_of [] (fun _ => [])) images_pattern) < 254)%nat ∧
  main (world_of [] (fun _ => [])) labelled_args = ([], Raise FileNotFoundError) ∧
  outcome (main (world_of [] (fun _ => [])) labelled_args) ≠ Raise IndexError.
Proof. split; [cbn; lia|]. split; [reflexivity | discriminate]. Qed.

(** ** The --input flag *)

Lemma main_with_input w args inp : main w (with_input args inp) = main w args.
Proof. reflexivity. Qed.

(** C7.  Two runs that differ only in [--input] do the same and end the
    same, so they open the same images; and the images a run opens are, in
    order, the first ones of [glob('test_images/*.jpg')]. *)
Theorem input_flag_ignored w args inp1 inp2 :
  main w (with_input args inp1) = main w (with_input args inp2) ∧
  opened_images (trace (main w (with_input args inp1)))
    = opened_images (trace (main w (with_input args inp2))) ∧
  opened_images (trace (main w (with_input args inp1)))
    `prefix_of` glob w "test_images/*.jpg".
Proof.
  rewrite !main_with_input. split; [done|]. split; [done|].
  rewrite main_trace. apply main_images_events.
Qed.

(** ** Boxes *)

(** C5.  Every detection the loop records appends the width
    [xmax - xmin] and the height [ymax - ymin] of its box, beside the
    corner [xmin], [ymin]. *)
Theorem box_extent_recorded labels img st obj :
  ∃ t st',
    record_detection labels img st obj = (t, Ok st') ∧
    img_w st' = img_w st ++ [xmax (obj_bbox obj) - xmin (obj_bbox obj)] ∧
    img_h st' = img_h st ++ [ymax (obj_bbox obj) - ymin (obj_bbox obj)] ∧
    img_x st' = img_x st ++ [xmin (obj_bbox obj)] ∧
    img_y st' = img_y st ++ [ymin (obj_bbox obj)].
Proof. eexists _, _. split; [reflexivity|]. repeat split. Qed.

(** The same for a whole pass of the loop over any images. *)
Lemma image_loop_extents w args labels interp imgs t st :
  image_loop w args labels interp imgs init_locals = (t, Ok st) →
  img_w st = map (fun d => xmax (obj_bbox d.2) - xmin (obj_bbox d.2))
               (detections_of w args interp imgs) ∧
  img_h st = map (fun d => ymax (obj_bbox d.2) - ymin (obj_bbox d.2))
               (detections_of w args interp imgs).
Proof.
  intros H. apply image_loop_complete in H as (Hext & _); [|by left].
  destruct Hext as (_ & _ & _ & _ & Hw & Hh & _). by rewrite Hw, Hh.
Qed.

(** ** make_interpreter *)

Lemma with_device_cover model_file :
  lacks "@" model_file = false →
  ∃ path device, lacks "@" path = true ∧ model_file = with_device path device.
Proof.
  intros H. destruct (lacks_or_cut "@" model_file) as [H'|(p & d & Hp & ->)].
  - congruence.
  - by exists p, d.
Qed.

(** C8.  For an argument [path@device], [path] being what stands before the
    first "@", the runtime's constructor is called on [path] alone, and any
    other device token gives the same call. *)
Theorem make_interpreter_ignores_device {I : Type}
    (tflite_ctor : string → result I) (path device : string) :
  lacks "@" path = true →
  make_interpreter tflite_ctor (with_device path device) = tflite_ctor path ∧
  ∀ device', make_interpreter tflite_ctor (with_device path device')
             = make_interpreter tflite_ctor (with_device path device).
Proof.
  intros H.
  assert (Hm : ∀ d, make_interpreter tflite_ctor (with_device path d) = tflite_ctor path).
  { intros d. unfold make_interpreter, with_device. by rewrite (split_all_first _ _ _ H). }
  split; [apply Hm|]. intros d'. by rewrite !Hm.
Qed.

Lemma make_interpreter_ignores_device_witness :
  lacks "@" "model_edgetpu.tflite" = true ∧
  make_interpreter (fun p => Ok {| model_path := p |}) "model_edgetpu.tflite@usb:0"
    = Ok {| model_path := "model_edgetpu.tflite" |}.
Proof.
  split; [reflexivity|].
  exact (proj1 (make_interpreter_ignores_device
                  (fun p => Ok {| model_path := p |})
                  "model_edgetpu.tflite" "usb:0" eq_refl)).
Defined.


(** ** An image without detections *)





(** ** One image, one detection *)

(** C1 at its own scenario: one matched image, a decoder stub returning one
    detection of score 0.9, threshold 0.4.  The run allocates the tensors
    and stops in [IndexError] at [print(img_name[253])]: no image is opened
    and nothing is exported. *)
Theorem single_image_run_raises :
  glob (world_of one_image (fun _ => [sample_object])) images_pattern = one_image ∧
  obj_score sample_object = (9 # 10)%Q ∧
  arg_threshold default_args = (4 # 10)%Q ∧
  main (world_of one_image (fun _ => [sample_object])) default_args
    = ([AllocateTensors], Raise IndexError).
Proof. repeat split. Qed.

Lemma labels_round_trip_witness :
  Forall clean_label ["cat"; "traffic light"; "7"] ∧
  bare_readable ["cat"; "traffic light"; "7"] ∧
  load_labels_text (write_labels_indexed 0 ["cat"; "traffic light"; "7"])
    = Ok (seq_map 0 ["cat"; "traffic light"; "7"]) ∧
  load_labels_text (write_labels_bare ["cat"; "traffic light"; "7"])
    = Ok (seq_map 0 ["cat"; "traffic light"; "7"]).
Proof.
  assert (Hc : Forall clean_label ["cat"; "traffic light"; "7"]).
  { repeat constructor. }
  assert (Hb : bare_readable ["cat"; "traffic light"; "7"]) by exact I.
  split; [exact Hc|]. split; [exact Hb|].
  destruct (labels_round_trip _ Hc) as [Hi Hbare].
  split; [exact Hi | exact (Hbare Hb)].
Defined.

(** C6 as worded fails: a label with a blank in front comes back without
    it from either format, and in the bare format a first label "7 up" comes
    back as the label "up" under the key 7. *)
Lemma labels_round_trip_counterexample :
  load_labels_text (write_labels_indexed 0 [" cat"]) = Ok {[ 0 := "cat" ]} ∧
  load_labels_text (write_labels_indexed 0 [" cat"]) ≠ Ok (seq_map 0 [" cat"]) ∧
  load_labels_text (write_labels_bare [" cat"]) ≠ Ok (seq_map 0 [" cat"]) ∧
  load_labels_text (write_labels_bare ["7 up"]) = Ok {[ 7 := "up" ]} ∧
  load_labels_text (write_labels_bare ["7 up"]) ≠ Ok (seq_map 0 ["7 up"]).
Proof.
  assert (Hne : ∀ (a b : gmap Z string) k, a !! k ≠ b !! k → Ok a ≠ Ok b).
  { intros a b k H [= ->]. by apply H. }
  split; [reflexivity|]. split; [by apply (Hne _ _ 0)|].
  split; [by apply (Hne _ _ 0)|]. split; [reflexivity|]. by apply (Hne _ _ 0).
Qed.


(** * Further properties of the script *)

(** ** load_labels: failures *)




Lemma dict_of_pairs_bad ps acc :
  (∃ p, p ∈ ps ∧ length p ≠ 2%nat) → dict_of_pairs ps acc = Raise ValueError.
Proof.
  revert acc. induction ps as [|p r IH]; intros acc (q & Hin & Hlen).
  - by apply elem_of_nil in Hin.
  - simpl. destruct p as [|index [|label [|x y]]]; try done.
    destruct (Str.to_int index); [|done].
    apply IH. exists q. split; [|done].
    apply elem_of_cons in Hin as [->|Hin]; [done | exact Hin].
Qed.

(** X2.  Once the first token of the first line is all digits, any line
    without a space makes [load_labels] raise [ValueError]: the file is not
    read as bare labels from there on. *)
Theorem load_labels_line_without_space content line0 rest tok t line :
  readlines content = line0 :: rest →
  Str.split " " (Some 1%nat) line0 = tok :: t →
  Str.isdigit tok = true →
  line ∈ line0 :: rest →
  lacks " " line = true →
  load_labels_text content = Raise ValueError.
Proof.
  intros Hl Ht Hd Hin Hlack. unfold load_labels_text, load_labels_lines.
  rewrite Hl, Ht. cbn [item0]. rewrite Hd.
  apply dict_of_pairs_bad. exists [line]. split; [|done].
  rewrite <- (split_lacks " " (Some 1%nat) line Hlack).
  apply list_elem_of_In, in_map, list_elem_of_In, Hin.
Qed.

Lemma load_labels_line_without_space_witness :
  load_labels_text ("0 cat" +:+ nl +:+ "dog" +:+ nl) = Raise ValueError.
Proof.
  apply (load_labels_line_without_space _ ("0 cat" +:+ nl) ["dog" +:+ nl]
           "0" ["cat" +:+ nl] ("dog" +:+ nl)); try reflexivity.
  apply elem_of_cons. right. apply elem_of_cons. by left.
Defined.

Lemma isdigit_char_not_int_space c :
  Str.isdigit_char c = true → Str.int_space c = false.
Proof.
  unfold Str.isdigit_char, Str.int_space.
  rewrite !orb_true_iff, !orb_false_iff, !in_range_spec, !in_range_false. lia.
Qed.

Lemma eqb_apart (p : ascii → bool) c x :
  p c = true → p x = false → Ascii.eqb c x = false.
Proof. intros Hc Hx. destruct (Ascii.eqb_spec c x) as [->|]; [congruence | done]. Qed.

Lemma int_digits_foreign_digit s acc :
  Str.forallb Str.isdigit_char s = true →
  Str.forallb (Str.in_range 48 57) s = false →
  Str.int_digits acc s = None.
Proof.
  revert acc. induction s as [|c r IH]; intros acc Hd Ha; [done|].
  simpl in Hd, Ha. apply andb_true_iff in Hd as [Hc Hr].
  simpl. unfold Str.digit_val.
  destruct (Str.in_range 48 57 c) eqn:Ec; [|done].
  cbn [andb] in Ha. destruct r as [|c' r']; [done|].
  assert (Hc' : Str.isdigit_char c' = true).
  { simpl in Hr. by apply andb_true_iff in Hr as [? _]. }
  cbn [Str.forallb]. rewrite (isdigit_char_not_int_space c' Hc'). cbn [andb].
  rewrite (eqb_apart Str.isdigit_char c' "_" Hc' eq_refl). by apply IH.
Qed.

Lemma to_int_foreign_digit tok :
  Str.isdigit tok = true → ascii_digits tok = false → Str.to_int tok = None.
Proof.
  unfold Str.isdigit, ascii_digits, Str.to_int. destruct tok as [|c r]; [done|].
  intros Hd Ha.
  assert (Hc : Str.isdigit_char c = true).
  { simpl in Hd. by apply andb_true_iff in Hd as [? _]. }
  cbn [Str.lstrip_with]. rewrite (isdigit_char_not_int_space c Hc).
  rewrite (eqb_apart Str.isdigit_char c "+" Hc eq_refl),
    (eqb_apart Str.isdigit_char c "-" Hc eq_refl).
  by rewrite (int_digits_foreign_digit _ _ Hd Ha).
Qed.

Lemma superscript_token_isdigit tok :
  tok ≠ "" →
  Str.forallb (fun c => Str.in_range 48 57 c || superscript_digit c) tok = true →
  Str.isdigit tok = true.
Proof.
  intros Hne H. unfold Str.isdigit. destruct tok as [|c r]; [done|].
  revert H. generalize (String c r). clear. intros s.
  induction s as [|c r IH]; [done|]. simpl. rewrite !andb_true_iff.
  intros [Hc Hr]. split; [|auto].
  unfold Str.isdigit_char. unfold superscript_digit in Hc.
  by rewrite orb_assoc in Hc.
Qed.

Lemma superscript_token_not_ascii tok :
  Str.forallb (fun c => negb (superscript_digit c)) tok = false →
  ascii_digits tok = false.
Proof.
  intros H. unfold ascii_digits. destruct tok as [|c r]; [done|].
  revert H. generalize (String c r). clear. intros s.
  induction s as [|c r IH]; [done|]. simpl. rewrite !andb_false_iff.
  intros [Hc|Hr]; [left|right; auto].
  apply negb_false_iff in Hc. unfold superscript_digit in Hc.
  rewrite orb_true_iff, !in_range_spec in Hc. apply in_range_false. lia.
Qed.

(** X3.  The guard [isdigit] accepts more than [int] converts.  A first
    token made of the ASCII digits and the superscript digits two, three and
    one, with at least one superscript in it, passes the guard, so
    [load_labels] takes the indexed branch, and there it raises
    [ValueError]. *)
Theorem load_labels_superscript_digit content line0 rest tok t :
  readlines content = line0 :: rest →
  Str.split " " (Some 1%nat) line0 = tok :: t →
  Str.forallb (fun c => Str.in_range 48 57 c || superscript_digit c) tok = true →
  Str.forallb (fun c => negb (superscript_digit c)) tok = false →
  load_labels_text content = Raise ValueError.
Proof.
  intros Hl Ht Hall Hsup.
  assert (Hne : tok ≠ "") by (by intros ->).
  pose proof (superscript_token_isdigit tok Hne Hall) as Hd.
  pose proof (superscript_token_not_ascii tok Hsup) as Ha.
  unfold load_labels_text, load_labels_lines.
  rewrite Hl, Ht. cbn [item0]. rewrite Hd. cbn [map dict_of_pairs]. rewrite Ht.
  destruct t as [|label [|x y]]; try done.
  by rewrite (to_int_foreign_digit tok Hd Ha).
Qed.

Lemma load_labels_superscript_digit_witness :
  load_labels_text (String "1" (String "178" " squared")) = Raise ValueError.
Proof.
  exact (load_labels_superscript_digit
           (String "1" (String "178" " squared")) (String "1" (String "178" " squared")) []
           (String "1" (String "178" "")) ["squared"] eq_refl eq_refl eq_refl eq_refl).
Defined.

(** ** load_labels: what a result looks like *)

Lemma seq_map_size ls i : size (seq_map i ls) = length ls.
Proof.
  revert i. induction ls as [|l r IH]; intros i; [done|].
  cbn [seq_map length]. rewrite map_size_insert_None, IH; [done|].
  rewrite seq_map_lookup. case_decide; [lia | done].
Qed.

(** X4.  Whenever the first token of the first line is not all digits,
    [load_labels] succeeds, whatever the other lines hold: it returns one
    entry per line, under the keys 0 up to the number of lines less one,
    each the stripped line. *)
Theorem load_labels_sequential content line0 rest tok t :
  readlines content = line0 :: rest →
  Str.split " " (Some 1%nat) line0 = tok :: t →
  Str.isdigit tok = false →
  ∃ m, load_labels_text content = Ok m ∧
       size m = length (line0 :: rest) ∧
       (∀ k, (k < length (line0 :: rest))%nat →
             m !! Z.of_nat k = Str.strip <$> (line0 :: rest) !! k) ∧
       (∀ k, is_Some (m !! k) → 0 ≤ k < Z.of_nat (length (line0 :: rest))).
Proof.
  intros Hl Ht Hd. exists (dict_of_enumerate 0 (line0 :: rest) ∅).
  split; [|split; [|split]].
  - unfold load_labels_text, load_labels_lines. rewrite Hl, Ht. cbn [item0].
    by rewrite Hd.
  - by rewrite dict_of_enumerate_seq_map, seq_map_size, length_fmap.
  - intros k Hk. rewrite dict_of_enumerate_lookup.
    rewrite decide_True by lia. by replace (Z.to_nat (Z.of_nat k - 0)) with k by lia.
  - intros k. rewrite dict_of_enumerate_lookup, lookup_empty.
    case_decide; [lia | by intros [? ?]].
Qed.

Lemma load_labels_sequential_witness :
  ∃ m, load_labels_text ("7up" +:+ nl +:+ "12 monkeys" +:+ nl) = Ok m ∧
       size m = 2%nat ∧ m !! 1 = Some "12 monkeys".
Proof.
  destruct (load_labels_sequential ("7up" +:+ nl +:+ "12 monkeys" +:+ nl)
              ("7up" +:+ nl) ["12 monkeys" +:+ nl] ("7up" +:+ nl) []
              eq_refl eq_refl eq_refl) as (m & Hm & Hs & Hk & _).
  exists m. split; [exact Hm|]. split; [exact Hs|].
  apply (Hk 1%nat). cbn. lia.
Defined.

Lemma lstrip_fixed p c r :
  p c = false → Str.lstrip_with p (String c r) = String c r.
Proof. intros H. simpl. by rewrite H. Qed.

Lemma rstrip_keeps_head p c r :
  p c = false → ∃ r', Str.rstrip_with p (String c r) = String c r'.
Proof.
  intros H. simpl. destruct (Str.rstrip_with p r); [|by eauto].
  rewrite H. by eauto.
Qed.

Lemma rstrip_idempotent p s :
  Str.rstrip_with p (Str.rstrip_with p s) = Str.rstrip_with p s.
Proof.
  induction s as [|c r IH]; [done|]. simpl.
  destruct (Str.rstrip_with p r) as [|c' r'] eqn:E.
  - destruct (p c) eqn:Ec; [done|]. simpl. by rewrite Ec.
  - remember (String c' r') as x. simpl. rewrite IH. by subst x.
Qed.

Lemma lstrip_head p s :
  Str.lstrip_with p s = "" ∨
  ∃ c r, Str.lstrip_with p s = String c r ∧ p c = false.
Proof.
  induction s as [|c r IH]; [by left|]. simpl.
  destruct (p c) eqn:E; [exact IH|]. right. by exists c, r.
Qed.

Lemma strip_idempotent s : Str.strip (Str.strip s) = Str.strip s.
Proof.
  unfold Str.strip.
  destruct (lstrip_head Str.isspace s) as [->|(c & r & -> & Hc)]; [done|].
  destruct (rstrip_keeps_head Str.isspace c r Hc) as [r' E].
  rewrite E, (lstrip_fixed _ _ _ Hc), <- E. apply rstrip_idempotent.
Qed.

Lemma dict_of_pairs_stripped ps acc m :
  dict_of_pairs ps acc = Ok m →
  (∀ k v, acc !! k = Some v → Str.strip v = v) →
  ∀ k v, m !! k = Some v → Str.strip v = v.
Proof.
  revert acc. induction ps as [|p r IH]; intros acc H Hacc.
  - by injection H as <-.
  - simpl in H. destruct p as [|index [|label [|x y]]]; try done.
    destruct (Str.to_int index) as [k0|]; [|done].
    apply (IH _ H). intros k v. rewrite lookup_insert. case_decide.
    + intros [= <-]. apply strip_idempotent.
    + apply Hacc.
Qed.

(** X5.  Every label [load_labels] returns is stripped: it has neither
    leading nor trailing white space, and stripping it again changes
    nothing. *)
Theorem load_labels_values_stripped content m k v :
  load_labels_text content = Ok m →
  m !! k = Some v →
  Str.strip v = v.
Proof.
  unfold load_labels_text, load_labels_lines.
  destruct (readlines content) as [|line0 ls].
  - intros [= <-]. by rewrite lookup_empty.
  - destruct (split_nonempty " " (Some 1%nat) line0) as (tok & t & ->). cbn [item0].
    destruct (Str.isdigit tok).
    + intros H. apply (dict_of_pairs_stripped _ _ _ H). intros k' v'.
      by rewrite lookup_empty.
    + intros H.
      assert (m = dict_of_enumerate 0 (line0 :: ls) ∅) as -> by congruence.
      rewrite dict_of_enumerate_lookup, lookup_empty.
      case_decide; [|done].
      destruct ((line0 :: ls) !! Z.to_nat (k - 0)) as [line|]; [|done].
      intros [= <-]. apply strip_idempotent.
Qed.

Lemma load_labels_values_stripped_witness :
  Str.strip "traffic light" = "traffic light".
Proof.
  apply (load_labels_values_stripped
           ("0  traffic light " +:+ nl) {[ 0 := "traffic light" ]} 0);
    reflexivity.
Defined.

Lemma dict_of_pairs_size ps acc m :
  dict_of_pairs ps acc = Ok m → (size m ≤ size acc + length ps)%nat.
Proof.
  revert acc. induction ps as [|p r IH]; intros acc H.
  - injection H as <-. cbn. lia.
  - simpl in H. destruct p as [|index [|label [|x y]]]; try done.
    destruct (Str.to_int index) as [k0|]; [|done].
    apply IH in H. rewrite map_size_insert in H. cbn [length].
    destruct (acc !! k0); cbn in H; lia.
Qed.

(** X6.  A loaded mapping never has more entries than the file has
    lines. *)
Theorem load_labels_size content m :
  load_labels_text content = Ok m →
  (size m ≤ length (readlines content))%nat.
Proof.
  unfold load_labels_text, load_labels_lines.
  destruct (readlines content) as [|line0 ls].
  - by intros [= <-].
  - destruct (split_nonempty " " (Some 1%nat) line0) as (tok & t & ->). cbn [item0].
    destruct (Str.isdigit tok).
    + intros H. apply dict_of_pairs_size in H.
      rewrite length_map, map_size_empty in H. exact H.
    + intros H.
      assert (m = dict_of_enumerate 0 (line0 :: ls) ∅) as -> by congruence.
      by rewrite dict_of_enumerate_seq_map, seq_map_size, length_fmap.
Qed.

Lemma load_labels_size_witness :
  load_labels_text ("3 cat" +:+ nl +:+ "3 dog" +:+ nl) = Ok {[ 3 := "dog" ]} ∧
  (size ({[ 3%Z := "dog" ]} : gmap Z string)
     ≤ length (readlines ("3 cat" +:+ nl +:+ "3 dog" +:+ nl)))%nat.
Proof.
  split; [reflexivity|].
  exact (load_labels_size ("3 cat" +:+ nl +:+ "3 dog" +:+ nl) {[ 3 := "dog" ]} eq_refl).
Defined.

(** ** make_interpreter and draw_objects *)

(** X7.  [make_interpreter] never fails by itself: whatever the argument,
    it calls the runtime's constructor once, on the text before the first
    "@", which is the whole argument when there is no "@". *)
Theorem make_interpreter_total {I : Type} (tflite_ctor : string → result I)
    (model_file : string) :
  ∃ path,
    make_interpreter tflite_ctor model_file = tflite_ctor path ∧
    lacks "@" path = true ∧
    (model_file = path ∨ ∃ device, model_file = with_device path device).
Proof.
  destruct (lacks_or_cut "@" model_file) as [H|(path & device & H & ->)].
  - exists model_file. split; [|split; [done | by left]].
    unfold make_interpreter. by rewrite (split_lacks _ _ _ H).
  - exists path. split; [|split; [done | right; by exists device]].
    unfold make_interpreter. by rewrite (split_all_first _ _ _ H).
Qed.




(** ** The per-image loop as a whole *)

Lemma count_invokes_app t1 t2 :
  count_invokes (t1 ++ t2) = (count_invokes t1 + count_invokes t2)%nat.
Proof.
  induction t1 as [|e r IH]; [done|]. destruct e; cbn; rewrite ?IH; done.
Qed.

Lemma count_invokes_runs n : count_invokes (runs_trace n) = n.
Proof. induction n as [|k IH]; [done|]. cbn. by rewrite IH. Qed.

Lemma count_invokes_detections labels o :
  count_invokes (flat_map (detection_trace labels) o) = O.
Proof. induction o as [|obj r IH]; [done|]. exact IH. Qed.

Lemma count_invokes_output args labels o :
  count_invokes (output_trace args labels o) = O.
Proof.
  unfold output_trace. destruct (truthy _); [|done].
  rewrite count_invokes_app. cbn. rewrite Nat.add_0_r. unfold draw_trace.
  induction o as [|obj r IH]; [done|]. exact IH.
Qed.

Lemma count_invokes_image args labels img n i0 o :
  count_invokes (image_trace args labels img n i0 o) = n.
Proof.
  unfold image_trace, image_header.
  rewrite !count_invokes_app, count_invokes_runs, count_invokes_detections,
    count_invokes_output.
  destruct o; cbn; lia.
Qed.

Lemma count_invokes_loop w args labels interp n i0 imgs :
  count_invokes (loop_trace w args labels interp n i0 imgs) = (n * length imgs)%nat.
Proof.
  revert i0. induction imgs as [|img r IH]; intros i0; cbn [loop_trace length].
  - cbn. lia.
  - rewrite count_invokes_app, count_invokes_image, IH. lia.
Qed.

(** X9.  In a run that completes the per-image loop the seven lists hold,
    in the order of the matched files and of the decoder's output, one row
    per detection: the file name of its image, its id, the corner, width and
    height of its box, and its score.  So all seven have the same length. *)
Theorem recorded_rows_are_detections w args labels interp t st :
  setup w args = ([AllocateTensors], Ok (labels, interp)) →
  main_images w args = (t, Ok st) →
  img_n st = map fst (detections_of w args interp (glob w images_pattern)) ∧
  img_id st = map (fun d => obj_id d.2)
                (detections_of w args interp (glob w images_pattern)) ∧
  img_x st = map (fun d => xmin (obj_bbox d.2))
               (detections_of w args interp (glob w images_pattern)) ∧
  img_y st = map (fun d => ymin (obj_bbox d.2))
               (detections_of w args interp (glob w images_pattern)) ∧
  img_w st = map (fun d => xmax (obj_bbox d.2) - xmin (obj_bbox d.2))
               (detections_of w args interp (glob w images_pattern)) ∧
  img_h st = map (fun d => ymax (obj_bbox d.2) - ymin (obj_bbox d.2))
               (detections_of w args interp (glob w images_pattern)) ∧
  img_score st = map (fun d => obj_score d.2)
                   (detections_of w args interp (glob w images_pattern)).
Proof.
  intros Hs Hrun.
  apply main_images_complete in Hrun as (labels' & interp' & name & t1 & Hs' & _ & Hloop & _).
  rewrite Hs in Hs'. injection Hs' as <- <-.
  apply image_loop_complete in Hloop as (Hext & _); [|by left].
  exact Hext.
Qed.

Lemma recorded_rows_are_detections_witness :
  img_n first_two_rows
    = map fst (detections_of (world_of many_images detect_on_first_two) default_args
                 {| model_path := "model.tflite" |} many_images).
Proof.
  assert (Hout : outcome (main_images (world_of many_images detect_on_first_two)
                            default_args) = Ok first_two_rows).
  { vm_compute. reflexivity. }
  assert (Hrun : main_images (world_of many_images detect_on_first_two) default_args
                 = (trace (main_images (world_of many_images detect_on_first_two)
                             default_args), Ok first_two_rows)).
  { rewrite <- Hout. symmetry. apply pair_eta. }
  exact (proj1 (recorded_rows_are_detections
                  (world_of many_images detect_on_first_two) default_args
                  ∅ {| model_path := "model.tflite" |} _ _ eq_refl Hrun)).
Defined.

(** X10.  A run gets through the per-image loop only if lines 91-93
    succeeded, the pattern matched at least 254 files, the count of
    inference runs is at least one, and for every matched file each call
    into a library returned: opening it, setting the input, invoking,
    decoding and, with [--output], converting, drawing, saving and
    showing. *)
Theorem per_image_loop_completes_only_if w args t st :
  main_images w args = (t, Ok st) →
  ∃ labels interp,
    setup w args = ([AllocateTensors], Ok (labels, interp)) ∧
    (254 ≤ length (glob w images_pattern))%nat ∧
    0 < arg_count args ∧
    Forall (pass_calls_ok w args labels interp) (glob w images_pattern).
Proof.
  intros Hrun.
  apply main_images_complete in Hrun as (labels & interp & name & t1 & Hs & H253 & Hloop & _).
  apply lookup_lt_Some in H253.
  apply image_loop_complete in Hloop as (_ & _ & _ & Hc & _); [|by left].
  destruct Hc as [Hcount Hall].
  { intros E. rewrite E in H253. cbn in H253. lia. }
  exists labels, interp. split; [done|]. split; [lia|]. done.
Qed.

Lemma per_image_loop_completes_only_if_witness :
  (254 ≤ length (glob (world_of many_images (fun _ => [])) images_pattern))%nat ∧
  0 < arg_count default_args.
Proof.
  assert (Hout : outcome (main_images (world_of many_images (fun _ => []))
                            default_args) = Ok no_rows).
  { vm_compute. reflexivity. }
  assert (Hrun : main_images (world_of many_images (fun _ => [])) default_args
                 = (trace (main_images (world_of many_images (fun _ => []))
                             default_args), Ok no_rows)).
  { rewrite <- Hout. symmetry. apply pair_eta. }
  destruct (per_image_loop_completes_only_if _ _ _ _ Hrun)
    as (labels & interp & _ & Hlen & Hcount & _).
  split; [exact Hlen | exact Hcount].
Defined.

Lemma not_invoke_count t : forallb not_invoke t = true → count_invokes t = 0%nat.
Proof.
  induction t as [|e r IH]; [done|]. destruct e; cbn; try done; exact IH.
Qed.

Lemma not_invoke_image args labels img i0 o :
  forallb not_invoke (image_trace args labels img 0 i0 o) = true.
Proof.
  assert (H2 : forallb not_invoke (flat_map (detection_trace labels) o) = true).
  { clear. induction o as [|obj r IH]; [done|]. exact IH. }
  assert (H3 : forallb not_invoke (output_trace args labels o) = true).
  { clear. unfold output_trace. destruct (truthy _); [|done].
    rewrite List.forallb_app, andb_true_r.
    unfold draw_trace. induction o as [|obj r IH]; [done|]. exact IH. }
  unfold image_trace, image_header. rewrite !List.forallb_app, H2, H3.
  by destruct o.
Qed.

(** X11.  With a count of inference runs of zero or less the interpreter
    is never invoked and the local [objs] is never assigned, so no run
    completes the per-image loop.  A run that gets past line 105 never opens
    a second image: it ends in the first pass, either in a call that fails
    or, the image opened and the input set, with [UnboundLocalError] at
    [if not objs]. *)
Theorem nonpositive_count_unbound w args :
  arg_count args ≤ 0 →
  count_invokes (trace (main w args)) = 0%nat ∧
  (∀ t st, main_images w args ≠ (t, Ok st)) ∧
  (∀ labels interp img rest,
     setup w args = ([AllocateTensors], Ok (labels, interp)) →
     glob w images_pattern = img :: rest →
     (253 ≤ length rest)%nat →
     opened_images (trace (main w args)) `prefix_of` [img] ∧
     (outcome (main w args) = Raise RuntimeFailure ∨
      outcome (main w args) = Raise UnboundLocalError ∧
      image_opens w img = true ∧ set_input_ok w interp img = true)).
Proof.
  intros Hcount. split; [|split].
  - rewrite main_trace, main_images_eq. apply not_invoke_count.
    destruct (setup_cases w args) as [(e & t0 & -> & [-> | ->])|(labels & interp & ->)];
      try done.
    destruct (glob w images_pattern !! 253%nat) as [name|]; [|done].
    cbn. apply image_loop_any. intros img i0 o.
    replace (Z.to_nat (arg_count args)) with O by lia. apply not_invoke_image.
  - intros t st Hrun.
    apply main_images_complete in Hrun as (labels & interp & name & t1 & _ & H253 & Hloop & _).
    apply lookup_lt_Some in H253.
    apply image_loop_complete in Hloop as (_ & _ & _ & Hc & _); [|by left].
    destruct Hc as [Hpos _]; [|lia].
    intros E. rewrite E in H253. cbn in H253. lia.
  - intros labels interp img rest Hs Hg Hlen.
    destruct (lookup_lt_is_Some_2 (glob w images_pattern) 253) as [name Hn].
    { rewrite Hg. cbn. lia. }
    rewrite main_trace, main_eq, main_images_eq, Hs, Hn, Hg. cbn zeta.
    rewrite image_loop_cons, process_image_seq, decode_image_eq.
    cbn zeta. replace (Z.to_nat (arg_count args)) with O by lia.
    destruct (image_opens w img); [|split; [done | by left]].
    destruct (set_input_ok w interp img); [|split; [done | by left]].
    rewrite report_detections_eq. split; [done | by right].
Qed.

Lemma nonpositive_count_unbound_witness :
  count_invokes (trace (main (world_of many_images (fun _ => [sample_object]))
                          zero_count_args)) = 0%nat ∧
  opened_images (trace (main (world_of many_images (fun _ => [sample_object]))
                          zero_count_args)) `prefix_of` [image_name 0] ∧
  outcome (main (world_of many_images (fun _ => [sample_object])) zero_count_args)
    = Raise UnboundLocalError.
Proof.
  destruct (nonpositive_count_unbound
              (world_of many_images (fun _ => [sample_object])) zero_count_args)
    as (Hinv & _ & Hunbound).
  { cbn. lia. }
  split; [exact Hinv|].
  destruct (Hunbound ∅ {| model_path := "model.tflite" |}
              (image_name 0) (map image_name (seq 1 253)) eq_refl eq_refl)
    as [Hopened Hend].
  { rewrite length_map, length_seq. lia. }
  split; [exact Hopened|].
  destruct Hend as [Hfail | [Hunb _]]; [|exact Hunb].
  vm_compute in Hfail. discriminate Hfail.
Defined.

(** X12.  When an image cannot be opened, the per-image loop does not
    complete, whatever else happens, and no image after that one is ever
    opened. *)
Theorem unreadable_image_stops_loop w args labels interp pre img post st :
  image_opens w img = false →
  (∀ st', outcome (image_loop w args labels interp (pre ++ img :: post) st) ≠ Ok st') ∧
  opened_images (trace (image_loop w args labels interp (pre ++ img :: post) st))
    `prefix_of` pre ++ [img].
Proof.
  intros Hbad. revert st. induction pre as [|p pre IH]; intros st.
  - cbn [app]. rewrite image_loop_cons.
    pose proof (opened_images_pass w args labels interp st img) as Hopen.
    destruct (process_image w args labels interp st img) as [t0 [st0|e]] eqn:Hpass.
    + apply process_image_complete in Hpass as (o & _ & _ & _ & Ho & _). congruence.
    + rewrite bind_pair. cbn [trace outcome fst snd] in *. by rewrite Hopen.
  - cbn [app]. rewrite image_loop_cons.
    pose proof (opened_images_pass w args labels interp st p) as Hopen.
    destruct (process_image w args labels interp st p) as [t0 [st0|e]];
      rewrite bind_pair; cbn [trace outcome fst snd] in *.
    + destruct (IH st0) as [Hne Hpre]. split; [exact Hne|].
      rewrite opened_images_app, Hopen. by apply prefix_cons.
    + split; [done|]. rewrite Hopen. apply prefix_cons, prefix_nil.
Qed.

Lemma unreadable_image_stops_loop_witness :
  opened_images
    (trace (image_loop (world_unreadable ["a.jpg"; "b.jpg"; "c.jpg"] "b.jpg") default_args
              ∅ {| model_path := "model.tflite" |} ["a.jpg"; "b.jpg"; "c.jpg"] init_locals))
    `prefix_of` ["a.jpg"; "b.jpg"].
Proof.
  exact (proj2 (unreadable_image_stops_loop
                  (world_unreadable ["a.jpg"; "b.jpg"; "c.jpg"] "b.jpg") default_args
                  ∅ {| model_path := "model.tflite" |} ["a.jpg"] "b.jpg" ["c.jpg"]
                  init_locals eq_refl)).
Defined.

(** X13.  A run that completes the per-image loop has opened every matched
    file once, in the order [glob] gave them, has invoked the interpreter
    [count] times for each, and leaves the counter [i] at the number of
    files. *)
Theorem inference_count w args t st :
  main_images w args = (t, Ok st) →
  opened_images t = glob w images_pattern ∧
  count_invokes t
    = (Z.to_nat (arg_count args) * length (glob w images_pattern))%nat ∧
  i st = Z.of_nat (length (glob w images_pattern)).
Proof.
  intros Hrun.
  apply main_images_complete in Hrun as (labels & interp & name & t1 & _ & _ & Hloop & ->).
  apply image_loop_complete in Hloop as (_ & Hop & _ & _ & Ht & Hi); [|by left].
  split; [|split].
  - cbn. exact Hop.
  - cbn. by rewrite Ht, count_invokes_loop.
  - rewrite Hi. cbn. lia.
Qed.

Lemma inference_count_witness :
  count_invokes (trace (main_images (world_of many_images (fun _ => [])) default_args))
    = (5 * 254)%nat.
Proof.
  assert (Hout : outcome (main_images (world_of many_images (fun _ => []))
                            default_args) = Ok no_rows).
  { vm_compute. reflexivity. }
  assert (Hrun : main_images (world_of many_images (fun _ => [])) default_args
                 = (trace (main_images (world_of many_images (fun _ => []))
                             default_args), Ok no_rows)).
  { rewrite <- Hout. symmetry. apply pair_eta. }
  exact (proj1 (proj2 (inference_count _ _ _ _ Hrun))).
Defined.

(** ** The output flag, the labels and the final table *)

Lemma no_output_image args labels img n i0 o :
  truthy (arg_output args) = false →
  forallb (fun e => negb (is_output_event e)) (image_trace args labels img n i0 o) = true.
Proof.
  intros H. unfold image_trace, image_header, output_trace. rewrite H.
  rewrite !List.forallb_app.
  assert (H1 : forallb (fun e => negb (is_output_event e)) (runs_trace n) = true).
  { clear. induction n as [|k IH]; [done|]. exact IH. }
  assert (H2 : forallb (fun e => negb (is_output_event e))
                 (flat_map (detection_trace labels) o) = true).
  { clear. induction o as [|obj r IH]; [done|]. exact IH. }
  rewrite H1, H2. by destruct o.
Qed.

(** X14.  Without [--output] (or with an empty one) no run, however it
    ends, draws on an image, saves one or shows one. *)
Theorem no_output_without_flag w args e :
  truthy (arg_output args) = false →
  e ∈ trace (main w args) →
  is_output_event e = false.
Proof.
  intros Hflag Hin. rewrite main_trace, main_images_eq in Hin.
  assert (Hall : ∀ t, forallb (fun e => negb (is_output_event e)) t = true →
                      e ∈ t → is_output_event e = false).
  { intros t Ht Hi. apply list_elem_of_In in Hi.
    apply (proj1 (forallb_forall _ _) Ht) in Hi. by apply negb_true_iff. }
  destruct (setup_cases w args) as [(x & t0 & Hs & [-> | ->])|(labels & interp & Hs)];
    rewrite Hs in Hin.
  - by apply elem_of_nil in Hin.
  - apply list_elem_of_singleton in Hin as ->. done.
  - destruct (glob w images_pattern !! 253%nat) as [name|].
    + cbn in Hin. apply elem_of_cons in Hin as [->|Hin]; [done|].
      apply elem_of_cons in Hin as [->|Hin]; [done|].
      apply (Hall _ (proj2 (image_loop_any _ w args labels interp _ init_locals
                       (fun img i0 o => no_output_image args labels img _ i0 o Hflag)))
               Hin).
    + apply list_elem_of_singleton in Hin as ->. done.
Qed.

Lemma no_output_without_flag_witness :
  trace (main (world_of many_images (fun _ => [sample_object])) default_args) !! 24%nat
    = Some (ImageOpen (image_name 1)) ∧
  is_output_event (ImageOpen (image_name 1)) = false.
Proof.
  assert (H : trace (main (world_of many_images (fun _ => [sample_object]))
                       default_args) !! 24%nat = Some (ImageOpen (image_name 1))).
  { vm_compute. reflexivity. }
  split; [exact H|].
  apply (no_output_without_flag (world_of many_images (fun _ => [sample_object]))
           default_args (ImageOpen (image_name 1)) eq_refl).
  apply list_elem_of_lookup. exists 24%nat. exact H.
Defined.

Lemma saved_paths_app t1 t2 :
  saved_paths (t1 ++ t2) = saved_paths t1 ++ saved_paths t2.
Proof.
  induction t1 as [|e r IH]; [done|]. destruct e; cbn; rewrite ?IH; done.
Qed.

Lemma saved_paths_runs n : saved_paths (runs_trace n) = [].
Proof. induction n as [|k IH]; [done|]. exact IH. Qed.

Lemma saved_paths_detections labels o :
  saved_paths (flat_map (detection_trace labels) o) = [].
Proof. induction o as [|obj r IH]; [done|]. exact IH. Qed.

Lemma saved_paths_draw labels o : saved_paths (draw_trace labels o) = [].
Proof. unfold draw_trace. induction o as [|obj r IH]; [done|]. exact IH. Qed.

Lemma saved_paths_image args labels img n i0 o out :
  arg_output args = Some out → out ≠ "" →
  saved_paths (image_trace args labels img n i0 o) = [out].
Proof.
  intros Hout Hne. unfold image_trace, image_header, output_trace.
  rewrite Hout. destruct out as [|c out']; [done|]. cbn [truthy default].
  rewrite !saved_paths_app, saved_paths_runs, saved_paths_detections, saved_paths_draw.
  by destruct o.
Qed.

Lemma saved_paths_loop w args labels interp n i0 imgs out :
  arg_output args = Some out → out ≠ "" →
  saved_paths (loop_trace w args labels interp n i0 imgs) = replicate (length imgs) out.
Proof.
  intros Hout Hne. revert i0. induction imgs as [|img r IH]; intros i0; [done|].
  cbn [loop_trace length replicate].
  by rewrite saved_paths_app, (saved_paths_image _ _ _ _ _ _ out Hout Hne), IH.
Qed.

(** X15.  With [--output] given, a run that completes the per-image loop
    saves one annotated image per matched file, every one of them to that
    same path: each save overwrites the one before. *)
Theorem annotated_images_share_one_path w args out t st :
  arg_output args = Some out →
  out ≠ "" →
  main_images w args = (t, Ok st) →
  saved_paths t = replicate (length (glob w images_pattern)) out.
Proof.
  intros Hout Hne Hrun.
  apply main_images_complete in Hrun as (labels & interp & name & t1 & _ & _ & Hloop & ->).
  apply image_loop_complete in Hloop as (_ & _ & _ & _ & -> & _); [|by left].
  cbn. by apply saved_paths_loop.
Qed.

Lemma annotated_images_share_one_path_witness :
  saved_paths (trace (main_images (world_of many_images (fun _ => [])) output_args))
    = replicate 254 "out.jpg".
Proof.
  assert (Hout : outcome (main_images (world_of many_images (fun _ => []))
                            output_args) = Ok no_rows).
  { vm_compute. reflexivity. }
  assert (Hrun : main_images (world_of many_images (fun _ => [])) output_args
                 = (trace (main_images (world_of many_images (fun _ => []))
                             output_args), Ok no_rows)).
  { rewrite <- Hout. symmetry. apply pair_eta. }
  exact (annotated_images_share_one_path (world_of many_images (fun _ => []))
           output_args "out.jpg" _ _ eq_refl ltac:(discriminate) Hrun).
Defined.

(** X16.  The labels only change what is printed and drawn: two passes of
    the per-image loop over the same files that both complete, under any
    two label mappings, leave the same lists and the same counter. *)
Theorem labels_do_not_change_rows w args labels1 labels2 interp imgs st t1 st1 t2 st2 :
  image_loop w args labels1 interp imgs st = (t1, Ok st1) →
  image_loop w args labels2 interp imgs st = (t2, Ok st2) →
  st1 = st2.
Proof.
  revert st t1 t2. induction imgs as [|img r IH]; intros st t1 t2 H1 H2.
  - cbn in H1, H2. congruence.
  - rewrite image_loop_cons in H1, H2.
    destruct (process_image w args labels1 interp st img) as [u1 [s1|e]] eqn:Hp1;
      rewrite bind_pair in H1; [|done].
    destruct (process_image w args labels2 interp st img) as [u2 [s2|e]] eqn:Hp2;
      rewrite bind_pair in H2; [|done].
    apply process_image_complete in Hp1 as (o1 & Ho1 & _ & -> & _).
    apply process_image_complete in Hp2 as (o2 & Ho2 & _ & -> & _).
    assert (o1 = o2) as -> by congruence.
    destruct (image_loop w args labels1 interp r _) as [v1 [s1|e]] eqn:Hr1; [|done].
    destruct (image_loop w args labels2 interp r _) as [v2 [s2|e]] eqn:Hr2; [|done].
    cbn [trace outcome fst snd] in H1, H2.
    assert (s1 = st1) as <- by congruence.
    assert (s2 = st2) as <- by congruence.
    exact (IH _ _ _ Hr1 Hr2).
Qed.

Lemma labels_do_not_change_rows_witness :
  outcome (image_loop (world_of one_image (fun _ => [sample_object])) default_args
             ∅ {| model_path := "model.tflite" |} one_image init_locals)
  = outcome (image_loop (world_of one_image (fun _ => [sample_object])) default_args
               {[ 17 := "dog" ]} {| model_path := "model.tflite" |} one_image init_locals).
Proof.
  destruct (image_loop (world_of one_image (fun _ => [sample_object])) default_args
              ∅ {| model_path := "model.tflite" |} one_image init_locals)
    as [t1 [st1|e1]] eqn:H1; [|vm_compute in H1; discriminate H1].
  destruct (image_loop (world_of one_image (fun _ => [sample_object])) default_args
              {[ 17 := "dog" ]} {| model_path := "model.tflite" |} one_image init_locals)
    as [t2 [st2|e2]] eqn:H2; [|vm_compute in H2; discriminate H2].
  cbn [outcome snd].
  exact (f_equal Ok (labels_do_not_change_rows _ _ _ _ _ _ _ _ _ _ _ H1 H2)).
Defined.

(** X17.  Built from lists of equal length, the final [img_csv] is the
    empty dict when nothing was recorded, and otherwise the seven-key dict
    naming the image of the last recorded detection alone; the table loop
    prints nothing and cannot fail. *)
Theorem final_table st :
  aligned st →
  build_table st =
    ([], Ok (match last (img_n st) with
             | Some name => img_dict_for name st
             | None => ∅
             end)).
Proof.
  unfold aligned, build_table. intros H. rewrite last_lookup, H.
  destruct (length (img_x st)) as [|k] eqn:E.
  - apply nil_length_inv in H. by rewrite H.
  - cbn [pred]. destruct (lookup_lt_is_Some_2 (img_n st) k) as [name Hn]; [lia|].
    rewrite Hn. by apply table_after_row.
Qed.

Lemma final_table_witness :
  build_table first_two_rows = ([], Ok (img_dict_for (image_name 1) first_two_rows)) ∧
  build_table no_rows = ([], Ok ∅).
Proof.
  split.
  - exact (final_table first_two_rows eq_refl).
  - exact (final_table no_rows eq_refl).
Defined.
